(** * Structural copy and merge utilities (copy_utils_solution.py)

    A shallow embedding of the copy/merge module: [shallow_copy],
    [deep_copy], [copy_dict_with_override], [merge_dicts],
    [deep_merge_dicts] and [freeze_dict].

    Python values are references into a store of mutable containers, so
    the functions are embedded with explicit store passing: a store is a
    list of container objects, a location is an index into it, and
    allocation appends.  Immutable values (None, bool, int, str, frozenset,
    tuple) carry no identity and are plain data.

    What is modelled and what is not:
    - dictionary keys are None, integers, strings and frozensets of
      integers; a bool key is the integer it equals ([True == 1] and they
      hash alike), floats, tuples as keys and user classes are left out;
    - mutable sets and frozensets hold integers only;
    - a dictionary is an association list in insertion order;
    - recursion in [deep_copy] and [deep_merge_dicts] is bounded by a fuel
      argument, and every result about them gives the fuel that suffices;
    - [copy.deepcopy] is the recursive copy; its memo table, which keeps
      sharing between nodes of the copy, is not modelled. *)

From Stdlib Require Import ZArith String List Lia Bool.
From Stdlib Require Import OrdersEx.
From stdpp Require Import base option list gmap strings sorting.

Set Warnings "-register-all".

Open Scope Z_scope.
Open Scope nat_scope.

(** ** Values, objects and the store *)

(** Locations are indices into the store. *)
Abbreviation loc := nat (only parsing).

Inductive key : Type :=
  | KNone
  | KInt (z : Z)
  | KStr (s : string)
  | KFrozenset (s : gset Z).

#[global] Instance key_eq_dec : EqDecision key.
Proof. solve_decision. Defined.

Inductive val : Type :=
  | VNone
  | VBool (b : bool)
  | VInt (z : Z)
  | VStr (s : string)
  | VFrozenset (s : gset Z)
  | VTuple (vs : list val)
  | VRef (l : loc).

Inductive obj : Type :=
  | OList (vs : list val)
  | ODict (es : list (key * val))
  | OSet (s : gset Z).

Abbreviation heap := (list obj) (only parsing).

Definition key_val (k : key) : val :=
  match k with
  | KNone => VNone
  | KInt z => VInt z
  | KStr s => VStr s
  | KFrozenset s => VFrozenset s
  end.

(** The pure shape of a value: what it denotes once references are
    followed.  This is the spec's Structured Value. *)
Inductive tree : Type :=
  | TNone
  | TBool (b : bool)
  | TInt (z : Z)
  | TStr (s : string)
  | TFrozenset (s : gset Z)
  | TTuple (ts : list tree)
  | TList (ts : list tree)
  | TDict (es : list (key * tree))
  | TSet (s : gset Z).

Definition key_tree (k : key) : tree :=
  match k with
  | KNone => TNone
  | KInt z => TInt z
  | KStr s => TStr s
  | KFrozenset s => TFrozenset s
  end.

(** Exceptions the modelled code can raise. *)
Inductive exn : Type := TypeError.

Inductive res (A : Type) : Type :=
  | Ok (a : A)
  | Raise (e : exn).
Arguments Ok {A} a.
Arguments Raise {A} e.

Definition res_bind {A B} (m : res A) (f : A -> res B) : res B :=
  match m with
  | Ok a => f a
  | Raise e => Raise e
  end.

(** ** Dictionaries as insertion-ordered association lists *)

Section dict.
Context {V : Type}.

(** [d[k]] / [k in d] *)
Fixpoint dict_get (k : key) (es : list (key * V)) : option V :=
  match es with
  | [] => None
  | (k', v) :: es' => if decide (k' = k) then Some v else dict_get k es'
  end.

(** [d[k] = v]: an existing key keeps its position, a new key goes last. *)
Fixpoint dict_set (k : key) (v : V) (es : list (key * V)) : list (key * V) :=
  match es with
  | [] => [(k, v)]
  | (k', v') :: es' =>
      if decide (k' = k) then (k', v) :: es' else (k', v') :: dict_set k v es'
  end.

(** [d.update(other)] *)
Definition dict_update (es other : list (key * V)) : list (key * V) :=
  fold_left (fun acc kv => dict_set kv.1 kv.2 acc) other es.

Definition dict_keys (es : list (key * V)) : list key := es.*1.
End dict.

(** ** Store primitives *)

Definition alloc (o : obj) (h : heap) : val * heap :=
  (VRef (length h), h ++ [o]).

Definition read_dict (h : heap) (v : val) : option (list (key * val)) :=
  match v with
  | VRef l => match h !! l with Some (ODict es) => Some es | _ => None end
  | _ => None
  end.

(** [isinstance(v, dict)] *)
Definition is_dict (h : heap) (v : val) : bool :=
  match read_dict h v with Some _ => true | None => false end.

(** Threading the store through a loop over a list. *)
Fixpoint mapM_heap (f : heap -> val -> option (val * heap)) (h : heap)
    (vs : list val) : option (list val * heap) :=
  match vs with
  | [] => Some ([], h)
  | v :: vs' =>
      '(v', h1) ← f h v;
      '(vs'', h2) ← mapM_heap f h1 vs';
      Some (v' :: vs'', h2)
  end.

Fixpoint mapM_entries (f : heap -> val -> option (val * heap)) (h : heap)
    (es : list (key * val)) : option (list (key * val) * heap) :=
  match es with
  | [] => Some ([], h)
  | (k, v) :: es' =>
      '(v', h1) ← f h v;
      '(es'', h2) ← mapM_entries f h1 es';
      Some ((k, v') :: es'', h2)
  end.

(** ** The copy primitives *)

(** [shallow_copy]: the three container branches build a new top-level
    object with the same members; [copy.copy] of an immutable value is the
    value itself. *)
Definition shallow_copy (h : heap) (v : val) : option (val * heap) :=
  match v with
  | VRef l =>
      o ← h !! l;
      match o with
      | ODict es => Some (alloc (ODict es) h)
      | OList vs => Some (alloc (OList vs) h)
      | OSet s => Some (alloc (OSet s) h)
      end
  | _ => Some (v, h)
  end.

(** [deep_copy] is [copy.deepcopy]: containers are rebuilt bottom-up,
    immutable scalars are returned as they are. *)
Fixpoint deep_copy (fuel : nat) (h : heap) (v : val) : option (val * heap) :=
  match fuel with
  | O => None
  | S f =>
      match v with
      | VTuple vs =>
          '(vs', h') ← mapM_heap (deep_copy f) h vs;
          Some (VTuple vs', h')
      | VRef l =>
          o ← h !! l;
          match o with
          | OList vs =>
              '(vs', h') ← mapM_heap (deep_copy f) h vs;
              Some (alloc (OList vs') h')
          | ODict es =>
              '(es', h') ← mapM_entries (deep_copy f) h es;
              Some (alloc (ODict es') h')
          | OSet s => Some (alloc (OSet s) h)
          end
      | _ => Some (v, h)
      end
  end.

(** ** Override, flat merge and deep merge *)

(** Binding of the call [copy_dict_with_override(base, **overrides)]:
    the keyword mapping must have string keys only, and none of them may
    name the positional parameter [original]; otherwise the call raises
    TypeError before the body runs. *)
Fixpoint unpack_keywords (es : list (key * val)) : res (list (string * val)) :=
  match es with
  | [] => Ok []
  | (KStr s, v) :: es' =>
      if decide (s = "original"%string) then Raise TypeError
      else res_bind (unpack_keywords es') (fun kw => Ok ((s, v) :: kw))
  | _ :: _ => Raise TypeError
  end.

Definition keyword_entries (kw : list (string * val)) : list (key * val) :=
  map (fun sv => (KStr sv.1, sv.2)) kw.

(** Body of [copy_dict_with_override]: [result = original.copy()], then
    [result.update(overrides)]. *)
Definition copy_dict_with_override (h : heap) (original : val)
    (overrides : list (string * val)) : option (val * heap) :=
  es ← read_dict h original;
  let '(result, h1) := alloc (ODict es) h in
  match result with
  | VRef lr =>
      er ← read_dict h1 result;
      Some (result, <[lr := ODict (dict_update er (keyword_entries overrides))]> h1)
  | _ => None
  end.

(** [OverrideCopy(base, overrides)] of the spec: the call with the
    mapping [overrides] passed as keyword arguments. *)
Definition OverrideCopy (h : heap) (base overrides : val)
    : option (res (val * heap)) :=
  eo ← read_dict h overrides;
  match unpack_keywords eo with
  | Raise e => Some (Raise e)
  | Ok kw => r ← copy_dict_with_override h base kw; Some (Ok r)
  end.

(** [result.update(d)] on the store. *)
Definition update_at (lr : loc) (h : heap) (d : val) : option heap :=
  er ← read_dict h (VRef lr);
  ed ← read_dict h d;
  Some (<[lr := ODict (dict_update er ed)]> h).

Fixpoint update_all (lr : loc) (h : heap) (ds : list val) : option heap :=
  match ds with
  | [] => Some h
  | d :: ds' => h1 ← update_at lr h d; update_all lr h1 ds'
  end.

(** [merge_dicts]: the variadic arguments arrive as the sequence [dicts]. *)
Definition merge_dicts (h : heap) (dicts : list val) : option (val * heap) :=
  let '(result, h1) := alloc (ODict []) h in
  match result with
  | VRef lr => h2 ← update_all lr h1 dicts; Some (result, h2)
  | _ => None
  end.

(** The loop of [deep_merge_dicts] over [override.items()], with the
    recursive call and the copy passed in. *)
Fixpoint merge_items (merge : heap -> val -> val -> option (val * heap))
    (copy : heap -> val -> option (val * heap))
    (lr : loc) (h : heap) (items : list (key * val)) : option heap :=
  match items with
  | [] => Some h
  | (key, value) :: items' =>
      er ← read_dict h (VRef lr);
      '(x, h1) ←
        match dict_get key er with
        | Some cur =>
            if is_dict h cur && is_dict h value
            then merge h cur value
            else copy h value
        | None => copy h value
        end;
      er1 ← read_dict h1 (VRef lr);
      merge_items merge copy lr (<[lr := ODict (dict_set key x er1)]> h1) items'
  end.

(** [deep_merge_dicts]: [result = deep_copy(base)], then the loop; the
    items of [override] are read once, since the loop writes to [result]
    only, which is a new object. *)
Fixpoint deep_merge_dicts (fuel : nat) (h : heap) (base override : val)
    : option (val * heap) :=
  match fuel with
  | O => None
  | S f =>
      '(result, h1) ← deep_copy (S f) h base;
      match result with
      | VRef lr =>
          _ ← read_dict h1 result;
          items ← read_dict h1 override;
          h2 ← merge_items (deep_merge_dicts f) (deep_copy (S f)) lr h1 items;
          Some (result, h2)
      | _ => None
      end
  end.

(** ** Freeze *)

(** Python's [<] on two keys: numbers among themselves, strings among
    themselves (lexicographic), frozensets by proper inclusion; any other
    pairing, None included, is unsupported and raises TypeError. *)
Definition key_lt (a b : key) : res bool :=
  match a, b with
  | KInt x, KInt y => Ok (x <? y)%Z
  | KStr x, KStr y =>
      Ok (match String_as_OT.compare x y with Lt => true | _ => false end)
  | KFrozenset x, KFrozenset y => Ok (bool_decide (x ⊂ y))
  | _, _ => Raise TypeError
  end.

Section sorting.
Context {A : Type} (lt : A -> A -> res bool).

(** Insertion of [x] into a sorted prefix, after every element it is not
    smaller than (the sort is stable). *)
Fixpoint insert_sorted (x : A) (l : list A) : res (list A) :=
  match l with
  | [] => Ok [x]
  | y :: l' =>
      res_bind (lt x y) (fun b =>
        if b then Ok (x :: y :: l')
        else res_bind (insert_sorted x l') (fun r => Ok (y :: r)))
  end.

Fixpoint sort_onto (acc l : list A) : res (list A) :=
  match l with
  | [] => Ok acc
  | x :: l' => res_bind (insert_sorted x acc) (fun acc' => sort_onto acc' l')
  end.

(** [sorted(l)]: a stable insertion sort, elements taken left to right.
    The built-in sort is comparison-based and stable as well, so the two
    agree whenever every comparison succeeds. *)
Definition sorted (l : list A) : res (list A) := sort_onto [] l.
End sorting.

Section freeze.
(** Rich comparison of two arbitrary values, [==] followed by [<], which
    for containers reads the store.  It is consulted only when two items
    have equal keys, so it is left abstract. *)
Variable value_lt : heap -> val -> val -> res bool.

(** [<] on two [(key, value)] items, as tuples compare: the first
    position where they differ decides. *)
Definition item_lt (h : heap) (a b : key * val) : res bool :=
  if decide (a.1 = b.1) then value_lt h a.2 b.2 else key_lt a.1 b.1.

Definition item_tuple (kv : key * val) : val :=
  VTuple [key_val kv.1; kv.2].

(** [tuple(sorted(d.items()))] *)
Definition freeze_dict (h : heap) (d : val) : option (res val) :=
  es ← read_dict h d;
  Some (res_bind (sorted (item_lt h) es)
          (fun items => Ok (VTuple (map item_tuple items)))).
End freeze.

(** ** Structured values denoted by store values *)

(** Entries of a dictionary object against entries of a mapping. *)
Definition entry_rel (R : val -> tree -> Prop)
    (e : key * val) (te : key * tree) : Prop :=
  e.1 = te.1 /\ R e.2 te.2.

(** [repr P h v t]: in store [h], value [v] denotes the structured value
    [t], and every location visited on the way satisfies [P]. *)
Inductive repr (P : loc -> Prop) (h : heap) : val -> tree -> Prop :=
  | repr_none : repr P h VNone TNone
  | repr_bool b : repr P h (VBool b) (TBool b)
  | repr_int z : repr P h (VInt z) (TInt z)
  | repr_str s : repr P h (VStr s) (TStr s)
  | repr_frozenset s : repr P h (VFrozenset s) (TFrozenset s)
  | repr_tuple vs ts :
      Forall2 (repr P h) vs ts -> repr P h (VTuple vs) (TTuple ts)
  | repr_list l vs ts :
      P l -> h !! l = Some (OList vs) ->
      Forall2 (repr P h) vs ts -> repr P h (VRef l) (TList ts)
  | repr_dict l es tes :
      P l -> h !! l = Some (ODict es) ->
      Forall2 (entry_rel (repr P h)) es tes ->
      repr P h (VRef l) (TDict tes)
  | repr_set l s :
      P l -> h !! l = Some (OSet s) -> repr P h (VRef l) (TSet s).

Definition anywhere : loc -> Prop := fun _ => True.

(** Nesting depth, which is also the fuel a traversal needs. *)
Fixpoint tree_depth (t : tree) : nat :=
  match t with
  | TTuple ts | TList ts => S (list_max (map tree_depth ts))
  | TDict es => S (list_max (map (fun e => tree_depth e.2) es))
  | _ => 1
  end.

(** Reading a structured value off the store. *)
Fixpoint reify (fuel : nat) (h : heap) (v : val) : option tree :=
  match fuel with
  | O => None
  | S f =>
      match v with
      | VNone => Some TNone
      | VBool b => Some (TBool b)
      | VInt z => Some (TInt z)
      | VStr s => Some (TStr s)
      | VFrozenset s => Some (TFrozenset s)
      | VTuple vs => ts ← mapM (reify f h) vs; Some (TTuple ts)
      | VRef l =>
          o ← h !! l;
          match o with
          | OList vs => ts ← mapM (reify f h) vs; Some (TList ts)
          | ODict es =>
              tes ← mapM (fun e => t ← reify f h e.2; Some (e.1, t)) es;
              Some (TDict tes)
          | OSet s => Some (TSet s)
          end
      end
  end.

(** Building a structured value in the store, as evaluating a literal
    does: members first, then the container. *)
Fixpoint alloc_tree (t : tree) (h : heap) : val * heap :=
  match t with
  | TNone => (VNone, h)
  | TBool b => (VBool b, h)
  | TInt z => (VInt z, h)
  | TStr s => (VStr s, h)
  | TFrozenset s => (VFrozenset s, h)
  | TTuple ts =>
      let '(vs, h') :=
        fold_left (fun acc t' =>
                     let '(v, h1) := alloc_tree t' acc.2 in (acc.1 ++ [v], h1))
                  ts ([], h) in
      (VTuple vs, h')
  | TList ts =>
      let '(vs, h') :=
        fold_left (fun acc t' =>
                     let '(v, h1) := alloc_tree t' acc.2 in (acc.1 ++ [v], h1))
                  ts ([], h) in
      alloc (OList vs) h'
  | TDict es =>
      let '(es', h') :=
        fold_left (fun acc e =>
                     let '(v, h1) := alloc_tree e.2 acc.2 in
                     (acc.1 ++ [(e.1, v)], h1))
                  es ([], h) in
      alloc (ODict es') h'
  | TSet s => alloc (OSet s) h
  end.

(** ** The spec's deep merge on structured values *)

(** One step of the spec's loop: at key [k] with incoming value [v], merge
    when both the current entry and [v] are mappings, else take [v]. *)
Fixpoint merge_value (v : tree) (cur : option tree) {struct v} : tree :=
  match v with
  | TDict vo =>
      match cur with
      | Some (TDict cb) =>
          TDict (fold_left
                   (fun acc kv =>
                      dict_set kv.1 (merge_value kv.2 (dict_get kv.1 acc)) acc)
                   vo cb)
      | _ => v
      end
  | _ => v
  end.

Definition DeepMerge_spec (base override : list (key * tree))
    : list (key * tree) :=
  fold_left
    (fun acc kv => dict_set kv.1 (merge_value kv.2 (dict_get kv.1 acc)) acc)
    override base.

(** ** Python's [==] on structured values *)

Fixpoint py_eq (a b : tree) {struct a} : bool :=
  match a, b with
  | TNone, TNone => true
  | TBool x, TBool y => bool_decide (x = y)
  | TBool x, TInt y => bool_decide (Z.b2z x = y)
  | TInt x, TBool y => bool_decide (x = Z.b2z y)
  | TInt x, TInt y => bool_decide (x = y)
  | TStr x, TStr y => bool_decide (x = y)
  | TFrozenset x, TFrozenset y => bool_decide (x = y)
  | TFrozenset x, TSet y => bool_decide (x = y)
  | TSet x, TFrozenset y => bool_decide (x = y)
  | TSet x, TSet y => bool_decide (x = y)
  | TTuple xs, TTuple ys =>
      (fix go (xs ys : list tree) : bool :=
         match xs, ys with
         | [], [] => true
         | x :: xs', y :: ys' => py_eq x y && go xs' ys'
         | _, _ => false
         end) xs ys
  | TList xs, TList ys =>
      (fix go (xs ys : list tree) : bool :=
         match xs, ys with
         | [], [] => true
         | x :: xs', y :: ys' => py_eq x y && go xs' ys'
         | _, _ => false
         end) xs ys
  | TDict xs, TDict ys =>
      bool_decide (length xs = length ys) &&
      (fix go (xs : list (key * tree)) : bool :=
         match xs with
         | [] => true
         | (k, x) :: xs' =>
             match dict_get k ys with
             | Some y => py_eq x y
             | None => false
             end && go xs'
         end) xs
  | _, _ => false
  end.

(** ** Auxiliary notions used in the statements *)

Definition between (lo hi : nat) : loc -> Prop := fun l => lo <= l < hi.

(** What a copy function must do on values of depth at most [n]: succeed,
    leave the store it started from as a prefix of the new one, and return
    a value of the same shape that lives in the new part only. *)
Definition copy_spec (F : heap -> val -> option (val * heap)) (n : nat) : Prop :=
  forall P h v t,
    repr P h v t -> tree_depth t <= n ->
    exists v' ext,
      F h v = Some (v', h ++ ext) /\
      repr (between (length h) (length (h ++ ext))) (h ++ ext) v' t.

Definition merge_step (acc : list (key * tree)) (kv : key * tree)
    : list (key * tree) :=
  dict_set kv.1 (merge_value kv.2 (dict_get kv.1 acc)) acc.

(** What a merge function must do on mappings of depth at most [n]. *)
Definition merge_spec (M : heap -> val -> val -> option (val * heap)) (n : nat)
    : Prop :=
  forall h b o tb to,
    repr anywhere h b (TDict tb) -> repr anywhere h o (TDict to) ->
    tree_depth (TDict tb) <= n -> tree_depth (TDict to) <= n ->
    exists r ext,
      M h b o = Some (r, h ++ ext) /\
      repr (between (length h) (length (h ++ ext))) (h ++ ext) r
           (TDict (DeepMerge_spec tb to)).

(** The spec's flat merge on entry lists: start from the empty mapping and
    write each input's items into the accumulator, in sequence order. *)
Definition FlatMerge_spec (eds : list (list (key * val))) : list (key * val) :=
  fold_left dict_update eds [].

(** The value a key ends up with: that of the last mapping holding it. *)
Fixpoint last_binding {V} (k : key) (eds : list (list (key * V))) : option V :=
  match eds with
  | [] => None
  | ed :: rest =>
      match last_binding k rest with
      | Some v => Some v
      | None => dict_get k ed
      end
  end.

(** Which mappings can be passed as keyword arguments. *)
Definition keyword_key (k : key) : Prop :=
  exists s, k = KStr s /\ s <> "original"%string.

Definition key_class (k : key) : nat :=
  match k with
  | KNone => 0
  | KInt _ => 1
  | KStr _ => 2
  | KFrozenset _ => 3
  end.

Definition key_before (a b : key) : Prop := key_lt a b = Ok true.

(** The keys can be totally ordered by [<]. *)
Definition mutually_orderable (ks : list key) : Prop :=
  forall a b, a ∈ ks -> b ∈ ks -> a <> b -> key_before a b \/ key_before b a.

(** Every [<] between two of the keys is supported. *)
Definition comparable_keys (ks : list key) : Prop :=
  length ks <= 1 \/
  exists c, c <> 0 /\ Forall (fun k => key_class k = c) ks.

(** Items compared by key alone. *)
Definition item_key_lt {V} (a b : key * V) : res bool := key_lt a.1 b.1.

Definition item_before {V} (a b : key * V) : Prop := key_before a.1 b.1.

Definition item_tree (kt : key * tree) : tree := TTuple [key_tree kt.1; kt.2].

(** Two mappings hold the same key/value pairs, values compared with
    [==]. *)
Definition same_items (t1 t2 : list (key * tree)) : Prop :=
  forall k,
    option_Forall2 (fun a b => py_eq a b = true) (dict_get k t1) (dict_get k t2).

Definition item_eq (a b : key * tree) : Prop :=
  a.1 = b.1 /\ py_eq a.2 b.2 = true.

(** [reach h v l]: the container at [l] is [v] itself or nested in it. *)
Inductive reach (h : heap) : val -> loc -> Prop :=
  | reach_here l : reach h (VRef l) l
  | reach_tuple vs v l : v ∈ vs -> reach h v l -> reach h (VTuple vs) l
  | reach_list l0 vs v l :
      h !! l0 = Some (OList vs) -> v ∈ vs -> reach h v l -> reach h (VRef l0) l
  | reach_dict l0 es k v l :
      h !! l0 = Some (ODict es) -> (k, v) ∈ es -> reach h v l ->
      reach h (VRef l0) l.

(** ** Running the functions on literals *)

Open Scope string_scope.
Open Scope list_scope.

(** Two literals evaluated one after the other in the empty store. *)
Definition two_literals (t1 t2 : tree) : val * val * heap :=
  let '(v1, h1) := alloc_tree t1 [] in
  let '(v2, h2) := alloc_tree t2 h1 in
  (v1, v2, h2).

Definition run_deep_merge (fuel : nat) (tb to : tree) : option tree :=
  let '(b, o, h) := two_literals tb to in
  '(r, h') ← deep_merge_dicts fuel h b o;
  reify fuel h' r.

Definition run_merge_dicts (fuel : nat) (t1 t2 : tree) : option tree :=
  let '(d1, d2, h) := two_literals t1 t2 in
  '(r, h') ← merge_dicts h [d1; d2];
  reify fuel h' r.

Definition run_freeze (value_lt : heap -> val -> val -> res bool)
    (fuel : nat) (h : heap) (d : val) : option tree :=
  match freeze_dict value_lt h d with
  | Some (Ok f) => reify fuel h f
  | _ => None
  end.

(** [Freeze(t1) == Freeze(t2)] *)
Definition run_freeze_eq (value_lt : heap -> val -> val -> res bool)
    (fuel : nat) (t1 t2 : tree) : option bool :=
  let '(d1, d2, h) := two_literals t1 t2 in
  f1 ← run_freeze value_lt fuel h d1;
  f2 ← run_freeze value_lt fuel h d2;
  Some (py_eq f1 f2).

Definition db_base_items : list (key * tree) :=
  [(KStr "db", TDict [(KStr "host", TStr "localhost");
                      (KStr "port", TInt 5432)])].
Definition db_base : tree := TDict db_base_items.

Definition db_override_items : list (key * tree) :=
  [(KStr "db", TDict [(KStr "port", TInt 5433)]);
   (KStr "cache", TDict [(KStr "enabled", TBool true)])].
Definition db_override : tree := TDict db_override_items.

(** The store after evaluating the two literals of the deep-merge example:
    the base mapping, the override mapping, the store. *)
Definition db_state : val * val * heap := two_literals db_base db_override.

Definition db_merged : tree :=
  TDict [(KStr "db", TDict [(KStr "host", TStr "localhost");
                            (KStr "port", TInt 5433)]);
         (KStr "cache", TDict [(KStr "enabled", TBool true)])].

Definition x_mapping_items : list (key * tree) :=
  [(KStr "x", TDict [(KStr "a", TInt 1)])].
Definition x_mapping : tree := TDict x_mapping_items.
Definition x_sequence_items : list (key * tree) :=
  [(KStr "x", TList [TInt 1; TInt 2])].
Definition x_sequence : tree := TDict x_sequence_items.
Definition x_state : val * val * heap := two_literals x_mapping x_sequence.

Definition ab_first : tree := TDict [(KStr "a", TInt 1); (KStr "b", TInt 2)].
Definition ba_first : tree := TDict [(KStr "b", TInt 2); (KStr "a", TInt 1)].
Definition a_one : tree := TDict [(KStr "a", TInt 1)].
Definition a_two : tree := TDict [(KStr "a", TInt 2)].
Definition b_c : tree := TDict [(KStr "b", TInt 99); (KStr "c", TInt 3)].
Definition a_b_c : tree :=
  TDict [(KStr "a", TInt 1); (KStr "b", TInt 99); (KStr "c", TInt 3)].

Definition ab_entries : list (key * val) :=
  [(KStr "a", VInt 1); (KStr "b", VInt 2)].
Definition b_c_entries : list (key * val) :=
  [(KStr "b", VInt 99); (KStr "c", VInt 3)].
Definition flat_state : val * val * heap := two_literals ab_first b_c.

(** The store holding the literal with a nested mapping. *)
Definition nested_state : val * heap := alloc_tree x_mapping [].

(** A mapping keyed by two frozensets neither of which contains the
    other. *)
Definition fs_keys : list (key * val) :=
  [(KFrozenset {[1%Z]}, VStr "a"); (KFrozenset {[2%Z]}, VStr "b")].
Definition fs_heap : heap := [ODict fs_keys].

(** A mapping with an integer key and a string key. *)
Definition mixed_keys : list (key * val) :=
  [(KInt 2, VStr "b"); (KStr "x", VStr "a")].
Definition mixed_heap : heap := [ODict mixed_keys].

Definition ab_items : list (key * tree) :=
  [(KStr "a", TInt 1); (KStr "b", TInt 2)].
Definition ba_items : list (key * tree) :=
  [(KStr "b", TInt 2); (KStr "a", TInt 1)].
Definition order_state : val * val * heap := two_literals ab_first ba_first.

(** A base mapping and an override with keyword-like keys. *)
Definition port_base : list (key * val) :=
  [(KStr "host", VStr "localhost"); (KStr "port", VInt 8080)].
Definition port_override : list (key * val) := [(KStr "port", VInt 3000)].
Definition port_heap : heap := [ODict port_base; ODict port_override].

(** A base mapping and an override keyed by an integer. *)
Definition int_override_heap : heap :=
  [ODict [(KStr "host", VStr "localhost")]; ODict [(KInt 1, VStr "x")]].

(** ** Further notions for the copy utilities *)


(** Mappings nested in mappings all have distinct keys, as every Python
    dictionary has. *)
Fixpoint dict_wf (t : tree) : Prop :=
  match t with
  | TDict es =>
      NoDup (dict_keys es) /\
      fold_right (fun e acc => dict_wf e.2 /\ acc) True es
  | _ => True
  end.

(** A store with one empty dictionary at location 0 followed by the
    deep-merge example's two literals shifted by one. *)
Definition empty_then_db : val * val * heap :=
  let '(v1, h1) := alloc_tree db_base [ODict []] in
  let '(v2, h2) := alloc_tree db_override h1 in
  (v1, v2, h2).

(** A mapping with the single key None. *)
Definition none_key_heap : heap := [ODict [(KNone, VInt 1)]].

(** ** Type utilities (type_utils_solution.py) *)

(** Run-time classes of the modelled values. *)
Inductive pytype : Type :=
  | TyNone | TyBool | TyInt | TyStr | TyFrozenset | TyTuple
  | TyList | TyDict | TySet.

#[global] Instance pytype_eq_dec : EqDecision pytype.
Proof. solve_decision. Defined.




(** [value is None] *)
Definition is_none (v : val) : bool :=
  match v with VNone => true | _ => false end.

Definition is_not_none (v : val) : bool := negb (is_none v).

(** [bool(value)] *)
Definition is_truthy (h : heap) (v : val) : option bool :=
  match v with
  | VNone => Some false
  | VBool b => Some b
  | VInt z => Some (negb (z =? 0)%Z)
  | VStr s => Some (negb (String.eqb s ""))
  | VFrozenset s => Some (negb (bool_decide (s = ∅)))
  | VTuple vs => Some (negb (bool_decide (vs = [])))
  | VRef l =>
      o ← h !! l;
      Some (match o with
            | OList vs => negb (bool_decide (length vs = 0))
            | ODict es => negb (bool_decide (length es = 0))
            | OSet s => negb (bool_decide (s = ∅))
            end)
  end.




(** [data.get(key, default)] *)
Definition safe_get (h : heap) (data : val) (key : key) (default : val)
    : option val :=
  es ← read_dict h data;
  Some (match dict_get key es with Some v => v | None => default end).

(** [safe_nested_get(data, *keys, default=default)]: the loop over [keys]
    with its two early returns. *)
Fixpoint safe_nested_get (h : heap) (current : val) (keys : list key)
    (default : val) : val :=
  match keys with
  | [] => current
  | key :: keys' =>
      if is_dict h current then
        match safe_get h current key VNone with
        | Some current' =>
            if is_none current' then default
            else safe_nested_get h current' keys' default
        | None => default
        end
      else default
  end.

(** The value of a structured value along a path of keys. *)
Fixpoint tree_path (t : tree) (keys : list key) : option tree :=
  match keys with
  | [] => Some t
  | k :: keys' =>
      match t with
      | TDict es =>
          match dict_get k es with
          | Some t' => tree_path t' keys'
          | None => None
          end
      | _ => None
      end
  end.

(** The levels example of the module's own checks, with a stored None. *)
Definition levels : tree :=
  TDict [(KStr "level1",
          TDict [(KStr "level2", TDict [(KStr "value", TInt 42)]);
                 (KStr "gone", TNone)])].
Definition levels_state : val * heap := alloc_tree levels [].

(** ** String utilities (string_utils_solution.py) *)

From Stdlib Require Import Ascii.

(** A string is the sequence of its code points; the code points up to
    U+00FF are modelled, one [ascii] each.  Integers are [Z]. *)
Abbreviation pystr := (list ascii) (only parsing).

Definition py_len {A} (s : list A) : Z := Z.of_nat (length s).

(** Where a slice bound falls in a sequence of length [len]: a negative
    bound counts from the end, and bounds are clamped to the sequence. *)
Definition slice_index (len : nat) (i : Z) : nat :=
  if (i <? 0)%Z then Z.to_nat (Z.max 0 (i + Z.of_nat len))
  else Nat.min len (Z.to_nat i).

(** [s[:stop]], [s[start:]] and [s[start:stop]] *)
Definition slice_to {A} (stop : Z) (s : list A) : list A :=
  take (slice_index (length s) stop) s.

Definition slice_from {A} (start : Z) (s : list A) : list A :=
  drop (slice_index (length s) start) s.

Definition py_slice {A} (start stop : Z) (s : list A) : list A :=
  take (slice_index (length s) stop - slice_index (length s) start)
       (drop (slice_index (length s) start) s).

(** [s * n]: nothing when [n] is not positive. *)
Definition str_mul (s : pystr) (n : Z) : pystr :=
  concat (replicate (Z.to_nat n) s).

(** [range(start, stop, step)] for a step other than zero. *)
Definition py_range (start stop step : Z) : list Z :=
  let count :=
    if (0 <? step)%Z then
      if (start <? stop)%Z then ((stop - start + step - 1) / step)%Z else 0%Z
    else
      if (stop <? start)%Z then ((start - stop - step - 1) / (- step))%Z else 0%Z in
  map (fun j => (start + Z.of_nat j * step)%Z) (seq 0 (Z.to_nat count)).

Definition star : pystr := list_ascii_of_string "*".
Definition dots : pystr := list_ascii_of_string "...".
Definition space : pystr := list_ascii_of_string " ".
Definition hyphen : pystr := list_ascii_of_string "-".

(** [truncate(text, max_length, suffix)] *)
Definition truncate (text : pystr) (max_length : Z) (suffix : pystr) : pystr :=
  if (py_len text <=? max_length)%Z then text
  else slice_to (max_length - py_len suffix) text ++ suffix.

(** [mask_sensitive(text, visible_chars)] *)
Definition mask_sensitive (text : pystr) (visible_chars : Z) : pystr :=
  if (py_len text <=? visible_chars)%Z then str_mul star (py_len text)
  else str_mul star (py_len text - visible_chars) ++
       slice_from (- visible_chars) text.

(** What [split_into_chunks] does: return the chunks, or raise the
    ValueError of [range] with a zero step. *)
Inductive chunks_result : Type :=
  | Chunks (cs : list (list ascii))
  | RaiseValueError.

(** [split_into_chunks(text, chunk_size)] *)
Definition split_into_chunks (text : pystr) (chunk_size : Z) : chunks_result :=
  if (chunk_size =? 0)%Z then RaiseValueError
  else Chunks (map (fun i => py_slice i (i + chunk_size) text)
                   (py_range 0 (py_len text) chunk_size)).

(** Whitespace as [str.split] and [str.strip] see it, among the modelled
    code points: U+0009 to U+000D, U+001C to U+0020, U+0085 and U+00A0. *)
Definition is_space (c : ascii) : bool :=
  let n := nat_of_ascii c in
  ((9 <=? n)%nat && (n <=? 13)%nat) || ((28 <=? n)%nat && (n <=? 32)%nat) ||
  (n =? 133)%nat || (n =? 160)%nat.

(** The maximal runs of characters that are not separators, in order:
    [s.split()] when the separators are the whitespace characters. *)
Fixpoint split_on (sep : ascii -> bool) (s : pystr) : list (list ascii) :=
  match s with
  | [] => []
  | c :: s' =>
      if sep c then split_on sep s'
      else
        match s' with
        | [] => [[c]]
        | c' :: _ =>
            if sep c' then [c] :: split_on sep s'
            else
              match split_on sep s' with
              | w :: ws => (c :: w) :: ws
              | [] => [[c]]
              end
        end
  end.

(** [sep.join(words)] *)
Fixpoint str_join (sep : pystr) (words : list (list ascii)) : pystr :=
  match words with
  | [] => []
  | [w] => w
  | w :: ws => w ++ sep ++ str_join sep ws
  end.

(** [" ".join(text.split())] *)
Definition clean_text (text : pystr) : pystr :=
  str_join space (split_on is_space text).

Definition normalize_whitespace (text : pystr) : pystr :=
  str_join space (split_on is_space text).

(** [s.lstrip(chars)], [s.rstrip(chars)], [s.strip(chars)], the characters
    to strip given as a predicate. *)
Fixpoint lstrip (p : ascii -> bool) (s : pystr) : pystr :=
  match s with
  | [] => []
  | c :: s' => if p c then lstrip p s' else s
  end.

Fixpoint rstrip (p : ascii -> bool) (s : pystr) : pystr :=
  match s with
  | [] => []
  | c :: s' =>
      match rstrip p s' with
      | [] => if p c then [] else [c]
      | r => c :: r
      end
  end.

Definition strip (p : ascii -> bool) (s : pystr) : pystr :=
  rstrip p (lstrip p s).

(** [c.lower()] on the modelled code points: A to Z, and the capital
    letters U+00C0 to U+00DE other than the multiplication sign. *)
Definition lower_char (c : ascii) : ascii :=
  let n := nat_of_ascii c in
  if ((65 <=? n)%nat && (n <=? 90)%nat) ||
     ((192 <=? n)%nat && (n <=? 222)%nat && negb (n =? 215)%nat)
  then ascii_of_nat (n + 32) else c.

Definition str_lower (s : pystr) : pystr := map lower_char s.

(** The class [a-z0-9] of the slug pattern. *)
Definition is_slug_char (c : ascii) : bool :=
  let n := nat_of_ascii c in
  ((97 <=? n)%nat && (n <=? 122)%nat) || ((48 <=? n)%nat && (n <=? 57)%nat).

Definition is_hyphen (c : ascii) : bool := bool_decide (c = "-"%char).

(** [re.sub(r'[^a-z0-9]+', '-', s)]: every maximal run of characters
    outside the class becomes one hyphen; [in_run] tells whether the
    previous character was part of such a run. *)
Fixpoint sub_runs (in_run : bool) (s : pystr) : pystr :=
  match s with
  | [] => []
  | c :: s' =>
      if is_slug_char c then c :: sub_runs false s'
      else if in_run then sub_runs true s'
      else "-"%char :: sub_runs true s'
  end.

(** [slugify(text)] *)
Definition slugify (text : pystr) : pystr :=
  let text1 := strip is_space (str_lower text) in
  let text2 := sub_runs false text1 in
  strip is_hyphen text2.

(** The first [m] pieces of [c] elements of a sequence. *)
Definition chunk_list {A} (c m : nat) (s : list A) : list (list A) :=
  map (fun j => take c (drop (j * c) s)) (seq 0 m).

(** A word: a non-empty run of characters none of which is a separator. *)
Definition is_word (sep : ascii -> bool) (w : pystr) : Prop :=
  w <> [] /\ Forall (fun c => sep c = false) w.

(** The separators of the slug pattern: every character outside [a-z0-9]. *)
Definition not_slug_char (c : ascii) : bool := negb (is_slug_char c).

(** * Properties *)

(** ** Dictionary lemmas *)

Section dict_facts.
Context {V : Type}.
Implicit Types (es : list (key * V)) (k : key) (v : V).

Lemma dict_get_set_eq k v es : dict_get k (dict_set k v es) = Some v.
Proof.
  induction es as [|[k' v'] es IH]; csimpl.
  - by rewrite decide_True.
  - destruct (decide (k' = k)) as [->|Hne]; csimpl.
    + by rewrite decide_True.
    + by rewrite decide_False.
Qed.

Lemma dict_get_set_ne k k' v es :
  k <> k' -> dict_get k' (dict_set k v es) = dict_get k' es.
Proof.
  intros Hne. induction es as [|[k0 v0] es IH]; csimpl.
  - by rewrite decide_False.
  - destruct (decide (k0 = k)) as [->|Hk0]; csimpl.
    + by rewrite !decide_False.
    + by rewrite IH.
Qed.

Lemma dict_get_set k k' v es :
  dict_get k' (dict_set k v es) =
  if decide (k = k') then Some v else dict_get k' es.
Proof.
  destruct (decide (k = k')) as [->|Hne].
  - apply dict_get_set_eq.
  - by apply dict_get_set_ne.
Qed.

Lemma dict_get_None k es : dict_get k es = None <-> k ∉ dict_keys es.
Proof.
  unfold dict_keys. induction es as [|[k' v'] es IH]; csimpl.
  - split; [intros _; apply not_elem_of_nil | done].
  - rewrite not_elem_of_cons. destruct (decide (k' = k)) as [->|Hne].
    + split; [done | intros [? _]; done].
    + rewrite IH. split; [intros ?; split; [congruence | done] | tauto].
Qed.

Lemma dict_get_is_Some k es : is_Some (dict_get k es) <-> k ∈ dict_keys es.
Proof.
  destruct (dict_get k es) eqn:Hg.
  - split; [intros _ | eauto].
    destruct (decide (k ∈ dict_keys es)) as [|Hn]; [done|].
    apply dict_get_None in Hn. congruence.
  - apply dict_get_None in Hg. split; [intros [? ?]; done | done].
Qed.

Lemma dict_get_elem_of k v es : dict_get k es = Some v -> (k, v) ∈ es.
Proof.
  induction es as [|[k' v'] es IH]; csimpl; [done|].
  destruct (decide (k' = k)) as [->|Hne].
  - intros [= ->]. left.
  - intros Hg. right. auto.
Qed.

Lemma dict_get_NoDup k v es :
  NoDup (dict_keys es) -> (k, v) ∈ es -> dict_get k es = Some v.
Proof.
  unfold dict_keys. induction es as [|[k' v'] es IH]; csimpl.
  - intros _ Hin. by apply elem_of_nil in Hin.
  - rewrite NoDup_cons. intros [Hk' Hnd] Hin.
    apply elem_of_cons in Hin as [[= -> ->]|Hin].
    + by rewrite decide_True.
    + rewrite decide_False; [auto|].
      intros ->. apply Hk'. apply list_elem_of_fmap. by exists (k, v).
Qed.

Lemma dict_keys_set k k' v es :
  k' ∈ dict_keys (dict_set k v es) <-> k' = k \/ k' ∈ dict_keys es.
Proof.
  rewrite <- !dict_get_is_Some, dict_get_set.
  destruct (decide (k = k')) as [->|Hne].
  - split; [auto | eauto].
  - split; [auto | intros [->|]; done].
Qed.

Lemma dict_set_notin k v es :
  k ∉ dict_keys es -> dict_set k v es = es ++ [(k, v)].
Proof.
  unfold dict_keys. induction es as [|[k' v'] es IH]; csimpl; [done|].
  rewrite not_elem_of_cons. intros [Hne Hnin].
  rewrite decide_False by congruence. by rewrite IH.
Qed.

Lemma dict_keys_set_in k v es :
  k ∈ dict_keys es -> dict_keys (dict_set k v es) = dict_keys es.
Proof.
  unfold dict_keys. induction es as [|[k' v'] es IH]; csimpl.
  - intros Hin. by apply elem_of_nil in Hin.
  - destruct (decide (k' = k)) as [->|Hne]; csimpl; [done|].
    intros Hin. apply elem_of_cons in Hin as [->|Hin]; [done|].
    by rewrite IH.
Qed.

Lemma dict_set_NoDup k v es :
  NoDup (dict_keys es) -> NoDup (dict_keys (dict_set k v es)).
Proof.
  intros Hnd. destruct (decide (k ∈ dict_keys es)) as [Hin|Hnin].
  - by rewrite dict_keys_set_in.
  - rewrite dict_set_notin by done. unfold dict_keys in *.
    rewrite fmap_app. csimpl. apply NoDup_app. split; [done|].
    split; [|apply NoDup_singleton].
    intros x Hx Hx'. apply list_elem_of_singleton in Hx'. by subst.
Qed.

Lemma dict_set_length k v es : length es <= length (dict_set k v es).
Proof.
  induction es as [|[k' v'] es IH]; csimpl; [lia|].
  destruct (decide (k' = k)); csimpl; lia.
Qed.

(** [update] writes the items of [other] in order, so the last item with
    a given key decides. *)
Lemma dict_get_update k es other :
  dict_get k (dict_update es other) =
  match dict_get k (reverse other) with
  | Some v => Some v
  | None => dict_get k es
  end.
Proof.
  unfold dict_update. revert es.
  induction other as [|[k' v'] other IH] using rev_ind; intros es; [done|].
  rewrite fold_left_app, reverse_snoc. csimpl.
  rewrite dict_get_set. destruct (decide (k' = k)); [done|]. apply IH.
Qed.

Lemma dict_get_reverse k es :
  NoDup (dict_keys es) -> dict_get k (reverse es) = dict_get k es.
Proof.
  intros Hnd. destruct (dict_get k es) as [v|] eqn:Hg.
  - apply dict_get_NoDup.
    + unfold dict_keys. rewrite fmap_reverse. by rewrite reverse_Permutation.
    + apply elem_of_reverse. by apply dict_get_elem_of.
  - apply dict_get_None. apply dict_get_None in Hg.
    unfold dict_keys in *. by rewrite fmap_reverse, elem_of_reverse.
Qed.

Lemma dict_keys_update k es other :
  k ∈ dict_keys (dict_update es other) <->
  k ∈ dict_keys es \/ k ∈ dict_keys other.
Proof.
  rewrite <- !dict_get_is_Some, dict_get_update.
  assert (is_Some (dict_get k (reverse other)) <-> is_Some (dict_get k other))
    as Hrev.
  { rewrite !dict_get_is_Some. unfold dict_keys.
    by rewrite fmap_reverse, elem_of_reverse. }
  destruct (dict_get k (reverse other)) as [v|] eqn:Hg.
  - split; [intros _; right; apply Hrev; eauto | eauto].
  - split; [auto|]. intros [?|Ho]; [done|].
    apply Hrev in Ho. by destruct Ho.
Qed.

Lemma dict_update_NoDup es other :
  NoDup (dict_keys es) -> NoDup (dict_keys (dict_update es other)).
Proof.
  unfold dict_update. revert es.
  induction other as [|[k' v'] other IH]; intros es Hnd; csimpl; [done|].
  apply IH. by apply dict_set_NoDup.
Qed.

(** Updating with a well-formed dictionary whose keys are all new
    appends it. *)
Lemma dict_update_fresh es other :
  NoDup (dict_keys other) ->
  (forall k, k ∈ dict_keys other -> k ∉ dict_keys es) ->
  dict_update es other = es ++ other.
Proof.
  unfold dict_update. revert es.
  induction other as [|[k' v'] other IH]; intros es Hnd Hdisj; csimpl.
  - by rewrite app_nil_r.
  - unfold dict_keys in Hnd. csimpl in Hnd. apply NoDup_cons in Hnd as [Hk' Hnd].
    rewrite dict_set_notin by (apply Hdisj; unfold dict_keys; csimpl; left).
    rewrite IH; [by rewrite <- app_assoc | done |].
    intros k Hk. unfold dict_keys. rewrite fmap_app. csimpl.
    rewrite elem_of_app, list_elem_of_singleton. intros [Hin| ->].
    + apply (Hdisj k); [unfold dict_keys; csimpl; by right | done].
    + done.
Qed.

Lemma dict_update_nil es :
  NoDup (dict_keys es) -> dict_update [] es = es.
Proof.
  intros Hnd. rewrite dict_update_fresh; [done | done |].
  intros k _. unfold dict_keys. csimpl. apply not_elem_of_nil.
Qed.
End dict_facts.

(** ** The representation relation *)

Section repr_facts.
Implicit Types (P Q : loc -> Prop) (h : heap) (v : val) (t : tree).

Lemma repr_ind' P h (R : val -> tree -> Prop) :
  R VNone TNone ->
  (forall b, R (VBool b) (TBool b)) ->
  (forall z, R (VInt z) (TInt z)) ->
  (forall s, R (VStr s) (TStr s)) ->
  (forall s, R (VFrozenset s) (TFrozenset s)) ->
  (forall vs ts, Forall2 (repr P h) vs ts -> Forall2 R vs ts ->
                 R (VTuple vs) (TTuple ts)) ->
  (forall l vs ts, P l -> h !! l = Some (OList vs) ->
                   Forall2 (repr P h) vs ts -> Forall2 R vs ts ->
                   R (VRef l) (TList ts)) ->
  (forall l es tes, P l -> h !! l = Some (ODict es) ->
                    Forall2 (entry_rel (repr P h)) es tes ->
                    Forall2 (entry_rel R) es tes ->
                    R (VRef l) (TDict tes)) ->
  (forall l s, P l -> h !! l = Some (OSet s) -> R (VRef l) (TSet s)) ->
  forall v t, repr P h v t -> R v t.
Proof.
  intros Hnone Hbool Hint Hstr Hfs Htup Hlist Hdict Hset.
  fix IH 3. intros v t Hr.
  destruct Hr as [| | | | |vs ts Hall|l vs ts HP Hl Hall|l es tes HP Hl Hall|].
  - apply Hnone.
  - apply Hbool.
  - apply Hint.
  - apply Hstr.
  - apply Hfs.
  - apply Htup; [done|]. induction Hall; constructor; auto.
  - eapply Hlist; [done..|]. clear Hl.
    induction Hall; constructor; auto.
  - eapply Hdict; [done..|]. clear Hl.
    induction Hall as [|e te es tes [Hk Hv] _ IHall]; constructor; [|done].
    split; [done|]. by apply IH.
  - by eapply Hset.
Qed.

(** Moving a representation to another store and another location
    predicate: only the locations it visits matter. *)
Lemma repr_mono P Q h h' v t :
  (forall l, P l -> l < length h -> Q l /\ h' !! l = h !! l) ->
  repr P h v t -> repr Q h' v t.
Proof.
  intros Hmono Hr. induction Hr using repr_ind'; try by constructor.
  - destruct (Hmono l) as [HQ Hl]; [done | by eapply lookup_lt_Some |].
    econstructor; [done | by rewrite Hl | done].
  - destruct (Hmono l) as [HQ Hl]; [done | by eapply lookup_lt_Some |].
    econstructor; [done | by rewrite Hl | done].
  - destruct (Hmono l) as [HQ Hl]; [done | by eapply lookup_lt_Some |].
    econstructor; [done | by rewrite Hl].
Qed.

Lemma repr_weaken P Q h v t :
  (forall l, P l -> Q l) -> repr P h v t -> repr Q h v t.
Proof. intros HPQ. apply repr_mono. auto. Qed.

Lemma repr_anywhere P h v t : repr P h v t -> repr anywhere h v t.
Proof. by apply repr_weaken. Qed.

Lemma repr_bound P h v t :
  repr P h v t -> repr (fun l => P l /\ l < length h) h v t.
Proof. apply repr_mono. auto. Qed.

Lemma repr_app P h ext v t : repr P h v t -> repr P (h ++ ext) v t.
Proof.
  apply repr_mono. intros l HP Hl. split; [done|].
  by apply lookup_app_l.
Qed.

Lemma Forall2_functional {A B} (R : A -> B -> Prop) (l : list A)
    (k k' : list B) :
  Forall2 (fun a b => forall b', R a b' -> b = b') l k ->
  Forall2 R l k' -> k = k'.
Proof.
  intros Hall. revert k'.
  induction Hall as [|a b l k Hab _ IH]; intros k' Hall';
    inversion Hall'; subst; [done|]. f_equal; auto.
Qed.

Lemma entries_functional (R : val -> tree -> Prop) es tes tes' :
  Forall2 (entry_rel (fun v t => forall t', R v t' -> t = t')) es tes ->
  Forall2 (entry_rel R) es tes' -> tes = tes'.
Proof.
  intros Hall. revert tes'.
  induction Hall as [|[k v] [k1 t] es tes [Hk Hv] _ IH]; intros tes' Hall';
    inversion Hall' as [|? [k2 t2] ? ? [Hk2 Hv2]]; subst; [done|].
  simpl in *. subst. f_equal; [f_equal|]; auto.
Qed.

Lemma repr_functional P Q h v t t' :
  repr P h v t -> repr Q h v t' -> t = t'.
Proof.
  intros Hr. revert t'.
  induction Hr as [| | | | |vs ts _ IH|l vs ts _ Hl _ IH|l es tes _ Hl _ IH|l s _ Hl]
    using repr_ind'; intros t' Hr'; inversion Hr'; subst; try done;
    try congruence.
  - f_equal. by eapply Forall2_functional.
  - f_equal. eapply Forall2_functional; [done|]. congruence.
  - f_equal. eapply entries_functional; [done|]. congruence.
Qed.

Lemma repr_dict_inv P h v tes :
  repr P h v (TDict tes) ->
  exists l es, v = VRef l /\ P l /\ h !! l = Some (ODict es) /\
               Forall2 (entry_rel (repr P h)) es tes.
Proof. inversion 1; subst. eauto 10. Qed.

Lemma repr_is_dict P h v t :
  repr P h v t -> is_dict h v = true <-> exists tes, t = TDict tes.
Proof.
  unfold is_dict, read_dict.
  destruct 1; simplify_option_eq; split; try done; eauto;
    by intros [? ?].
Qed.

Lemma entries_dict_get R k es tes :
  Forall2 (entry_rel R) es tes ->
  option_Forall2 R (dict_get k es) (dict_get k tes).
Proof.
  induction 1 as [|[k1 v] [k2 t] es tes [Hk Hv] _ IH]; simpl in *.
  - constructor.
  - subst. destruct (decide (k2 = k)); [by constructor | done].
Qed.

Lemma entries_dict_set R k x tx es tes :
  Forall2 (entry_rel R) es tes -> R x tx ->
  Forall2 (entry_rel R) (dict_set k x es) (dict_set k tx tes).
Proof.
  intros Hall Hx.
  induction Hall as [|[k1 v] [k2 t] es tes [Hk Hv] Hall IH]; simpl in *.
  - by repeat constructor.
  - subst. destruct (decide (k2 = k)); constructor; by try split.
Qed.

Lemma entries_keys R es tes :
  Forall2 (entry_rel R) es tes -> dict_keys es = dict_keys tes.
Proof.
  unfold dict_keys.
  induction 1 as [|[k1 v] [k2 t] es tes [Hk Hv] _ IH]; csimpl in *;
    [done|]. by f_equal.
Qed.

Lemma entries_mono (R R' : val -> tree -> Prop) es tes :
  (forall v t, R v t -> R' v t) ->
  Forall2 (entry_rel R) es tes -> Forall2 (entry_rel R') es tes.
Proof.
  intros HR Hall. eapply Forall2_impl; [done|].
  intros e te [? ?]. split; auto.
Qed.
End repr_facts.

(** ** Depth of structured values *)

Lemma tree_depth_pos t : 1 <= tree_depth t.
Proof. destruct t; simpl; lia. Qed.

Lemma tree_depth_tuple ts n :
  tree_depth (TTuple ts) <= S n <-> Forall (fun t => tree_depth t <= n) ts.
Proof. simpl. rewrite <- Nat.succ_le_mono, list_max_le. apply Forall_map. Qed.

Lemma tree_depth_list ts n :
  tree_depth (TList ts) <= S n <-> Forall (fun t => tree_depth t <= n) ts.
Proof. simpl. rewrite <- Nat.succ_le_mono, list_max_le. apply Forall_map. Qed.

Lemma tree_depth_dict es n :
  tree_depth (TDict es) <= S n <->
  Forall (fun e : key * tree => tree_depth e.2 <= n) es.
Proof. simpl. rewrite <- Nat.succ_le_mono, list_max_le. apply Forall_map. Qed.

Lemma tree_depth_dict_lt es :
  Forall (fun e : key * tree => tree_depth e.2 < tree_depth (TDict es)) es.
Proof.
  assert (tree_depth (TDict es) <= tree_depth (TDict es)) as Hle by lia.
  apply tree_depth_dict in Hle. eapply Forall_impl; [done|].
  intros e He. simpl. apply Nat.lt_succ_r. exact He.
Qed.

Lemma entries_depth_get n k (es : list (key * tree)) t :
  Forall (fun e : key * tree => tree_depth e.2 <= n) es ->
  dict_get k es = Some t -> tree_depth t <= n.
Proof.
  intros Hall Hg. apply dict_get_elem_of in Hg.
  rewrite List.Forall_forall in Hall. apply list_elem_of_In in Hg.
  by apply (Hall (k, t)).
Qed.

Lemma entries_depth_set n k t (es : list (key * tree)) :
  Forall (fun e : key * tree => tree_depth e.2 <= n) es ->
  tree_depth t <= n ->
  Forall (fun e : key * tree => tree_depth e.2 <= n) (dict_set k t es).
Proof.
  intros Hall Ht. induction Hall as [|[k' t'] es Hk Hall IH]; simpl.
  - by repeat constructor.
  - destruct (decide (k' = k)); constructor; done.
Qed.

(** ** Reading off the store is sound *)

Lemma mapM_Forall2_sound {A B} (f : A -> option B) (R : A -> B -> Prop) l k :
  (forall a b, f a = Some b -> R a b) ->
  mapM f l = Some k -> Forall2 R l k.
Proof.
  intros Hf Hm. apply mapM_Some_1 in Hm.
  eapply Forall2_impl; [done|]. auto.
Qed.

Lemma reify_sound fuel h v t :
  reify fuel h v = Some t -> repr anywhere h v t.
Proof.
  revert v t. induction fuel as [|f IH]; intros v t; [done|]. simpl.
  destruct v as [| | | | |vs|l]; intros Hr; try (injection Hr as <-; constructor).
  - destruct (mapM (reify f h) vs) as [ts|] eqn:Hm; [|done].
    injection Hr as <-. constructor.
    eapply mapM_Forall2_sound; [|done]. auto.
  - destruct (h !! l) as [[vs|es|s]|] eqn:Hl; [| | |done]; simpl in Hr.
    + destruct (mapM (reify f h) vs) as [ts|] eqn:Hm; [|done].
      injection Hr as <-. eapply repr_list; [done..|].
      eapply mapM_Forall2_sound; [|done]. auto.
    + destruct (mapM _ es) as [tes|] eqn:Hm; [|done].
      injection Hr as <-. eapply repr_dict; [done..|].
      eapply mapM_Forall2_sound; [|done].
      intros [k v] [k' t] Hkv. simpl in Hkv.
      destruct (reify f h v) as [t0|] eqn:Hv; [|done].
      injection Hkv as <- <-. split; simpl; auto.
    + injection Hr as <-. by eapply repr_set.
Qed.

(** ** Deep copy *)

Lemma repr_between_app lo lo' hi h ext v t :
  lo' <= lo -> hi <= length h ->
  repr (between lo hi) h v t ->
  repr (between lo' (length (h ++ ext))) (h ++ ext) v t.
Proof.
  intros Hlo Hhi. apply repr_mono. intros l [? ?] Hl. split.
  - unfold between. rewrite length_app. lia.
  - by apply lookup_app_l.
Qed.

Lemma mapM_heap_copy F n P h vs ts :
  copy_spec F n ->
  Forall2 (repr P h) vs ts -> Forall (fun t => tree_depth t <= n) ts ->
  exists vs' ext,
    mapM_heap F h vs = Some (vs', h ++ ext) /\
    Forall2 (repr (between (length h) (length (h ++ ext))) (h ++ ext)) vs' ts.
Proof.
  intros HF. revert h vs.
  induction ts as [|t ts IH]; intros h vs Hall Hd;
    inversion Hall as [|v ? vs0 ? Hv Hvs]; subst; simpl.
  - exists [], []. rewrite app_nil_r. by split.
  - apply Forall_cons in Hd as [Ht Hd].
    destruct (HF P h v t Hv Ht) as (v' & e1 & -> & Hv'). simpl.
    destruct (IH (h ++ e1) vs0) as (vs' & e2 & -> & Hvs'); [|done|].
    { eapply Forall2_impl; [done|]. intros. by apply repr_app. }
    simpl. exists (v' :: vs'), (e1 ++ e2). rewrite app_assoc. split; [done|].
    constructor.
    + eapply repr_between_app; [| |done]; lia.
    + eapply Forall2_impl; [done|]. intros v0 t0.
      apply repr_weaken. unfold between. rewrite !length_app. lia.
Qed.

Lemma mapM_entries_copy F n P h es tes :
  copy_spec F n ->
  Forall2 (entry_rel (repr P h)) es tes ->
  Forall (fun e : key * tree => tree_depth e.2 <= n) tes ->
  exists es' ext,
    mapM_entries F h es = Some (es', h ++ ext) /\
    Forall2 (entry_rel (repr (between (length h) (length (h ++ ext))) (h ++ ext)))
            es' tes.
Proof.
  intros HF. revert h es.
  induction tes as [|[k t] tes IH]; intros h es Hall Hd;
    inversion Hall as [|[k0 v] ? es0 ? [Hk Hv] Hes]; subst; simpl in *.
  - exists [], []. rewrite app_nil_r. by split.
  - apply Forall_cons in Hd as [Ht Hd]. subst.
    destruct (HF P h v t Hv Ht) as (v' & e1 & -> & Hv'). simpl.
    destruct (IH (h ++ e1) es0) as (es' & e2 & -> & Hes'); [|done|].
    { eapply entries_mono; [|done]. intros. by apply repr_app. }
    simpl. exists ((k, v') :: es'), (e1 ++ e2). rewrite app_assoc.
    split; [done|]. constructor.
    + split; [done|]. simpl. eapply repr_between_app; [| |done]; lia.
    + eapply entries_mono; [|done]. intros v0 t0.
      apply repr_weaken. unfold between. rewrite !length_app. lia.
Qed.

Lemma repr_between_alloc lo h o v t :
  repr (between lo (length h)) h v t ->
  repr (between lo (length (h ++ [o]))) (h ++ [o]) v t.
Proof. apply repr_between_app; lia. Qed.

Lemma deep_copy_correct fuel : copy_spec (deep_copy fuel) fuel.
Proof.
  induction fuel as [|f IH]; intros P h v t Hr Hd.
  { pose proof (tree_depth_pos t). lia. }
  assert (forall h0 : heap, h0 ++ [] = h0) as Hnil by apply app_nil_r.
  destruct Hr as [| | | | |vs ts Hall|l vs ts HP Hl Hall|l es tes HP Hl Hall|l s HP Hl];
    simpl.
  1-5: eexists _, []; rewrite Hnil; split; [done | constructor].
  - apply tree_depth_tuple in Hd.
    destruct (mapM_heap_copy _ _ _ _ _ _ IH Hall Hd) as (vs' & ext & -> & Hvs').
    simpl. exists (VTuple vs'), ext. split; [done|]. by constructor.
  - apply tree_depth_list in Hd. rewrite Hl. simpl.
    destruct (mapM_heap_copy _ _ _ _ _ _ IH Hall Hd) as (vs' & ext & -> & Hvs').
    simpl. unfold alloc. exists (VRef (length (h ++ ext))), (ext ++ [OList vs']).
    rewrite app_assoc. split; [done|].
    eapply repr_list.
    + unfold between. rewrite !length_app. simpl. lia.
    + by apply list_lookup_middle.
    + eapply Forall2_impl; [done|]. intros. by apply repr_between_alloc.
  - apply tree_depth_dict in Hd. rewrite Hl. simpl.
    destruct (mapM_entries_copy _ _ _ _ _ _ IH Hall Hd) as (es' & ext & -> & Hes').
    simpl. unfold alloc. exists (VRef (length (h ++ ext))), (ext ++ [ODict es']).
    rewrite app_assoc. split; [done|].
    eapply repr_dict.
    + unfold between. rewrite !length_app. simpl. lia.
    + by apply list_lookup_middle.
    + eapply entries_mono; [|done]. intros. by apply repr_between_alloc.
  - rewrite Hl. simpl. unfold alloc. exists (VRef (length h)), [OSet s].
    split; [done|]. eapply repr_set.
    + unfold between. rewrite length_app. simpl. lia.
    + by apply list_lookup_middle.
Qed.

Lemma copy_spec_le F n m : m <= n -> copy_spec F n -> copy_spec F m.
Proof. intros Hle HF P h v t Hr Hd. apply (HF P); [done | lia]. Qed.

Lemma Forall2_impl_r {A B} (R R' : A -> B -> Prop) (Q : B -> Prop) l k :
  Forall2 R l k -> Forall Q k ->
  (forall a b, R a b -> Q b -> R' a b) -> Forall2 R' l k.
Proof.
  intros Hall HQ Himp. induction Hall as [|a b l k Hab Hall IH].
  - constructor.
  - apply Forall_cons in HQ as [? ?]. constructor; auto.
Qed.

(** A value of a finite shape cannot reach a location whose own shape is
    deeper. *)
Lemma repr_exclude P Q h lr t0 v t :
  repr Q h (VRef lr) t0 -> repr P h v t -> tree_depth t < tree_depth t0 ->
  repr (fun l => P l /\ l <> lr) h v t.
Proof.
  intros H0 Hr. pose proof (tree_depth_pos t0) as Hpos0.
  induction Hr as [| | | | |vs ts Hall IH|l vs ts HP Hl Hall IH|l es tes HP Hl Hall IH|l s HP Hl]
    using repr_ind'; intros Hd; try by constructor.
  all: match type of Hd with tree_depth ?t < _ =>
         pose proof (tree_depth_pos t) as Hpos end.
  - constructor.
    assert (tree_depth (TTuple ts) <= S (tree_depth t0 - 2)) as Hts by lia.
    apply tree_depth_tuple in Hts.
    eapply Forall2_impl_r; [exact IH | exact Hts |].
    intros v t Hvt Ht. apply Hvt. cbv beta in Ht. lia.
  - assert (l <> lr) as Hne.
    { intros ->. assert (TList ts = t0) as <-; [|lia].
      eapply repr_functional; [|done]. by eapply repr_list. }
    eapply repr_list; [done..|].
    assert (tree_depth (TList ts) <= S (tree_depth t0 - 2)) as Hts by lia.
    apply tree_depth_list in Hts.
    eapply Forall2_impl_r; [exact IH | exact Hts |].
    intros v t Hvt Ht. apply Hvt. cbv beta in Ht. lia.
  - assert (l <> lr) as Hne.
    { intros ->. assert (TDict tes = t0) as <-; [|lia].
      eapply repr_functional; [|done]. by eapply repr_dict. }
    eapply repr_dict; [done..|].
    assert (tree_depth (TDict tes) <= S (tree_depth t0 - 2)) as Hts by lia.
    apply tree_depth_dict in Hts.
    eapply Forall2_impl_r; [exact IH | exact Hts |].
    intros e te [Hk Hvt] Ht. split; [done|]. apply Hvt. cbv beta in Ht. lia.
  - assert (l <> lr) as Hne.
    { intros ->. assert (TSet s = t0) as <-; [|simpl in Hd; lia].
      eapply repr_functional; [|done]. by eapply repr_set. }
    by eapply repr_set.
Qed.

(** ** Deep merge *)

Lemma DeepMerge_spec_fold base override :
  DeepMerge_spec base override = fold_left merge_step override base.
Proof. reflexivity. Qed.

Lemma merge_value_dict vo cb :
  merge_value (TDict vo) (Some (TDict cb)) = TDict (DeepMerge_spec cb vo).
Proof. reflexivity. Qed.

(** Outside the mapping-against-mapping case the incoming value wins. *)
Lemma merge_value_replace v cur :
  ~ ((exists vo, v = TDict vo) /\ (exists cb, cur = Some (TDict cb))) ->
  merge_value v cur = v.
Proof.
  intros Hn. destruct v; try done. destruct cur as [[]|]; try done.
  exfalso. apply Hn. eauto.
Qed.

Lemma merge_value_cases v cur :
  (exists vo cb, v = TDict vo /\ cur = Some (TDict cb)) \/
  ~ ((exists vo, v = TDict vo) /\ (exists cb, cur = Some (TDict cb))).
Proof.
  destruct v; try (right; intros [[? ?] _]; congruence).
  destruct cur as [[]|]; try (right; intros [_ [? ?]]; congruence).
  left. eauto.
Qed.

Lemma merge_fold_depth n vo cb :
  (forall v cur, tree_depth v <= n ->
                 (forall c, cur = Some c -> tree_depth c <= n) ->
                 tree_depth (merge_value v cur) <= n) ->
  Forall (fun e : key * tree => tree_depth e.2 <= n) vo ->
  Forall (fun e : key * tree => tree_depth e.2 <= n) cb ->
  Forall (fun e : key * tree => tree_depth e.2 <= n) (fold_left merge_step vo cb).
Proof.
  intros IH Hvo. revert cb.
  induction Hvo as [|[k v] vo Hv _ IHvo]; intros cb Hcb; simpl; [done|].
  apply IHvo. unfold merge_step. simpl. apply entries_depth_set; [done|].
  apply IH; [done|]. intros c Hc. by eapply entries_depth_get.
Qed.

Lemma merge_value_depth n v cur :
  tree_depth v <= n -> (forall c, cur = Some c -> tree_depth c <= n) ->
  tree_depth (merge_value v cur) <= n.
Proof.
  revert v cur. induction n as [|n IH]; intros v cur Hv Hcur.
  { pose proof (tree_depth_pos v). lia. }
  destruct (merge_value_cases v cur) as [(vo & cb & -> & ->)|Hn].
  - rewrite merge_value_dict. apply tree_depth_dict.
    apply merge_fold_depth; [done| |].
    + by apply tree_depth_dict.
    + apply tree_depth_dict. by apply Hcur.
  - by rewrite merge_value_replace.
Qed.

(** The value the loop body computes for one item. *)
Lemma merge_choice M C n P Q h cur tcur value tv :
  merge_spec M n -> copy_spec C n ->
  option_Forall2 (repr P h) cur tcur -> repr Q h value tv ->
  tree_depth tv <= n -> (forall c, tcur = Some c -> tree_depth c <= n) ->
  exists x ext,
    match cur with
    | Some c => if is_dict h c && is_dict h value then M h c value
                else C h value
    | None => C h value
    end = Some (x, h ++ ext) /\
    repr (between (length h) (length (h ++ ext))) (h ++ ext) x
         (merge_value tv tcur).
Proof.
  intros HM HC Hcur Hv Hdv Hdc.
  destruct (merge_value_cases tv tcur) as [(vo & cb & -> & ->)|Hn].
  - inversion Hcur as [c ? Hc|]; subst.
    rewrite merge_value_dict.
    assert (is_dict h c = true) as -> by (apply (repr_is_dict _ _ _ _ Hc); eauto).
    assert (is_dict h value = true) as -> by (apply (repr_is_dict _ _ _ _ Hv); eauto).
    simpl. apply HM; eauto using repr_anywhere.
  - rewrite merge_value_replace by done.
    destruct (HC Q h value tv Hv Hdv) as (x & ext & HCeq & Hx).
    exists x, ext. split; [|done].
    destruct Hcur as [c tc Hc|]; [|done].
    destruct (is_dict h c) eqn:Hdc'; [|done].
    destruct (is_dict h value) eqn:Hdv'; [|done].
    exfalso. apply Hn. split.
    + by apply (repr_is_dict _ _ _ _ Hv).
    + apply (repr_is_dict _ _ _ _ Hc) in Hdc' as [cb ->]. eauto.
Qed.

Lemma merge_items_correct M C n n0 lr :
  merge_spec M n -> copy_spec C n -> n0 <= lr ->
  forall items titems h er tr,
    h !! lr = Some (ODict er) ->
    Forall2 (entry_rel (repr (fun l => n0 <= l /\ l <> lr) h)) er tr ->
    Forall2 (entry_rel (repr (fun l => l < n0) h)) items titems ->
    Forall (fun e : key * tree => tree_depth e.2 <= n) tr ->
    Forall (fun e : key * tree => tree_depth e.2 <= n) titems ->
    exists h' er',
      merge_items M C lr h items = Some h' /\
      length h <= length h' /\
      (forall l, l < n0 -> h' !! l = h !! l) /\
      h' !! lr = Some (ODict er') /\
      Forall2 (entry_rel (repr (fun l => n0 <= l /\ l <> lr) h')) er'
              (fold_left merge_step titems tr).
Proof.
  intros HM HC Hn0 items.
  induction items as [|[key value] items IH];
    intros titems h er tr Hlr Her Hitems Hdr Hdi;
    inversion Hitems as [|? [key' tv] ? titems' [Hk Hv] Hitems']; subst;
    simpl in *.
  { exists h, er. eauto 10. }
  subst key'. apply Forall_cons in Hdi as [Hdv Hdi]. simpl in Hdv.
  rewrite Hlr. simpl.
  pose proof (lookup_lt_Some _ _ _ Hlr) as Hlt.
  destruct (merge_choice M C n _ _ h (dict_get key er) (dict_get key tr)
              value tv HM HC (entries_dict_get _ key _ _ Her) Hv Hdv)
    as (x & ext & -> & Hx).
  { intros c Hc. eapply entries_depth_get; [exact Hdr | exact Hc]. }
  simpl. rewrite lookup_app_l, Hlr by done. simpl.
  set (h1 := <[lr := ODict (dict_set key x er)]> (h ++ ext)).
  assert (length h1 = length (h ++ ext)) as Hlen1 by apply length_insert.
  assert (forall l, l < length h -> l <> lr -> h1 !! l = h !! l) as Hframe.
  { intros l Hl Hne. unfold h1.
    rewrite list_lookup_insert_ne by done. by apply lookup_app_l. }
  destruct (IH titems' h1 (dict_set key x er) (merge_step tr (key, tv)))
    as (h' & er' & -> & Hlen' & Hold' & Hlr' & Her').
  - unfold h1. apply list_lookup_insert_eq. rewrite length_app. lia.
  - unfold merge_step. simpl. apply entries_dict_set.
    + eapply entries_mono; [|done]. intros v0 t0.
      apply repr_mono. intros l [? ?] Hl. split; [done|]. by apply Hframe.
    + revert Hx. apply repr_mono. intros l [Hlo Hhi] Hl. split; [lia|].
      unfold h1. by rewrite list_lookup_insert_ne by lia.
  - eapply entries_mono; [|done]. intros v0 t0.
    apply repr_mono. intros l ? Hl. split; [done|]. apply Hframe; lia.
  - unfold merge_step. simpl. apply entries_depth_set; [done|].
    apply merge_value_depth; [done|]. intros c Hc.
    eapply entries_depth_get; [exact Hdr | exact Hc].
  - done.
  - exists h', er'. split; [done|]. split.
    { rewrite Hlen1, length_app in Hlen'. lia. }
    split; [|done]. intros l Hl. rewrite Hold' by done. apply Hframe; lia.
Qed.

Lemma heap_prefix (h h' : heap) :
  length h <= length h' -> (forall l, l < length h -> h' !! l = h !! l) ->
  exists ext, h' = h ++ ext.
Proof.
  intros Hlen Hsame. exists (drop (length h) h').
  rewrite <- (take_drop (length h) h') at 1. f_equal.
  apply list_eq. intros i. destruct (decide (i < length h)) as [Hi|Hi].
  - rewrite lookup_take_lt by done. by apply Hsame.
  - rewrite lookup_take_ge by lia. symmetry. apply lookup_ge_None. lia.
Qed.

Lemma read_dict_lookup (h : heap) l es :
  h !! l = Some (ODict es) -> read_dict h (VRef l) = Some es.
Proof. intros Hl. simpl. by rewrite Hl. Qed.

Lemma deep_merge_correct fuel : merge_spec (deep_merge_dicts fuel) fuel.
Proof.
  induction fuel as [|f IH]; intros h b o tb to Hb Ho Hdb Hdo.
  { simpl in Hdb. lia. }
  cbn [deep_merge_dicts].
  destruct (deep_copy_correct (S f) _ h b _ Hb Hdb) as (r & ext & -> & Hr).
  cbn [mbind option_bind].
  pose proof Hr as Hr0.
  apply repr_dict_inv in Hr as (lr & er & -> & [Hlo Hhi] & Hlr & Her).
  apply repr_bound, (repr_app _ _ ext) in Ho.
  set (h1 := h ++ ext) in *.
  apply repr_dict_inv in Ho as (lo & items & -> & _ & Hlo' & Hitems).
  rewrite (read_dict_lookup _ _ _ Hlr), (read_dict_lookup _ _ _ Hlo').
  cbn [mbind option_bind].
  destruct (merge_items_correct (deep_merge_dicts f) (deep_copy (S f)) f
              (length h) lr IH) with (items := items) (titems := to)
              (h := h1) (er := er) (tr := tb)
    as (h' & er' & -> & Hlen' & Hold' & Hlr' & Her'); try done.
  - eapply copy_spec_le; [|apply deep_copy_correct]. lia.
  - eapply Forall2_impl_r; [exact Her | apply tree_depth_dict_lt |].
    intros e te [Hk Hv] Hd. split; [done|]. cbv beta in Hd.
    eapply repr_weaken; [|by eapply (repr_exclude _ _ _ lr _ _ _ Hr0 Hv)].
    unfold between. intros l [[? ?] ?]. split; [lia | done].
  - eapply entries_mono; [|done]. intros v0 t0.
    apply repr_weaken. by intros l [_ ?].
  - by apply tree_depth_dict.
  - by apply tree_depth_dict.
  - cbn [mbind option_bind].
    destruct (heap_prefix h h') as [ext' ->].
    { unfold h1 in Hlen'. rewrite length_app in Hlen'. lia. }
    { intros l Hl. rewrite Hold' by done. by apply lookup_app_l. }
    exists (VRef lr), ext'. split; [done|].
    pose proof (lookup_lt_Some _ _ _ Hlr') as Hlt.
    eapply repr_dict; [by split | done |].
    eapply entries_mono; [|done]. intros v0 t0 Hv0.
    apply repr_bound in Hv0. revert Hv0. apply repr_weaken.
    unfold between. intros l [[? ?] ?]. lia.
Qed.

(** ** Flat merge and override *)

Lemma read_dict_app (h ext : heap) d es :
  read_dict h d = Some es -> read_dict (h ++ ext) d = Some es.
Proof.
  destruct d as [| | | | | |l]; try done. simpl.
  destruct (h !! l) as [o|] eqn:Hl; [|done].
  by rewrite (lookup_app_l_Some _ _ _ _ Hl).
Qed.

Lemma insert_last (h : heap) o o' :
  <[length h := o']> (h ++ [o]) = h ++ [o'].
Proof.
  rewrite insert_app_r_alt by lia. by rewrite Nat.sub_diag.
Qed.

Lemma update_all_correct (h : heap) ds eds er :
  Forall2 (fun d ed => read_dict h d = Some ed) ds eds ->
  update_all (length h) (h ++ [ODict er]) ds =
  Some (h ++ [ODict (fold_left dict_update eds er)]).
Proof.
  intros Hall. revert er.
  induction Hall as [|d ed ds eds Hd _ IH]; intros er; simpl; [done|].
  unfold update_at.
  rewrite (read_dict_lookup _ _ er) by (by apply list_lookup_middle).
  rewrite (read_dict_app _ _ _ _ Hd). simpl.
  rewrite insert_last. apply IH.
Qed.

Lemma merge_dicts_correct (h : heap) ds eds :
  Forall2 (fun d ed => read_dict h d = Some ed) ds eds ->
  merge_dicts h ds = Some (VRef (length h), h ++ [ODict (FlatMerge_spec eds)]).
Proof.
  intros Hall. unfold merge_dicts, alloc.
  by rewrite (update_all_correct _ _ _ _ Hall).
Qed.

Lemma dict_get_fold_update {V} k (eds : list (list (key * V))) acc :
  Forall (fun ed => NoDup (dict_keys ed)) eds ->
  dict_get k (fold_left dict_update eds acc) =
  match last_binding k eds with
  | Some v => Some v
  | None => dict_get k acc
  end.
Proof.
  intros Hnd. revert acc.
  induction Hnd as [|ed eds Hed _ IH]; intros acc; simpl; [done|].
  rewrite IH. destruct (last_binding k eds); [done|].
  rewrite dict_get_update, dict_get_reverse by done.
  by destruct (dict_get k ed).
Qed.

Lemma dict_keys_fold_update {V} k (eds : list (list (key * V))) acc :
  k ∈ dict_keys (fold_left dict_update eds acc) <->
  k ∈ dict_keys acc \/ exists ed, ed ∈ eds /\ k ∈ dict_keys ed.
Proof.
  revert acc. induction eds as [|ed eds IH]; intros acc; simpl.
  - split; [auto|]. intros [?|(ed & Hin & _)]; [done|].
    by apply elem_of_nil in Hin.
  - rewrite IH, dict_keys_update. split.
    + intros [[?|?]|(ed' & ? & ?)]; [by left | right.. ].
      * exists ed. split; [left | done].
      * exists ed'. split; [by right | done].
    + intros [?|(ed' & Hin & ?)]; [by left; left|].
      apply elem_of_cons in Hin as [->|Hin]; [by left; right|].
      right. eauto.
Qed.

Lemma fold_update_NoDup {V} (eds : list (list (key * V))) acc :
  NoDup (dict_keys acc) -> NoDup (dict_keys (fold_left dict_update eds acc)).
Proof.
  revert acc. induction eds as [|ed eds IH]; intros acc Hnd; simpl; [done|].
  apply IH. by apply dict_update_NoDup.
Qed.

Lemma copy_dict_with_override_correct (h : heap) l es kw :
  h !! l = Some (ODict es) ->
  copy_dict_with_override h (VRef l) kw =
  Some (VRef (length h),
        h ++ [ODict (dict_update es (keyword_entries kw))]).
Proof.
  intros Hl. unfold copy_dict_with_override, alloc.
  rewrite (read_dict_lookup _ _ _ Hl). cbn [mbind option_bind].
  rewrite (read_dict_lookup _ _ es) by (by apply list_lookup_middle).
  cbn [mbind option_bind]. by rewrite insert_last.
Qed.

Lemma unpack_keywords_entries es kw :
  unpack_keywords es = Ok kw -> keyword_entries kw = es.
Proof.
  revert kw. induction es as [|[k v] es IH]; intros kw; simpl.
  - by intros [= <-].
  - destruct k as [| |s|]; try done.
    destruct (decide (s = "original"%string)); [done|].
    destruct (unpack_keywords es) as [kw'|]; [|done]. simpl.
    intros [= <-]. simpl. f_equal. by apply IH.
Qed.

Lemma unpack_keywords_Ok es :
  Forall keyword_key (dict_keys es) -> exists kw, unpack_keywords es = Ok kw.
Proof.
  unfold dict_keys. induction es as [|[k v] es IH]; csimpl; intros Hall.
  - by eexists.
  - apply Forall_cons in Hall as [(s & -> & Hs) Hall].
    destruct (IH Hall) as [kw ->]. rewrite decide_False by done.
    by eexists.
Qed.

Lemma unpack_keywords_Raise es :
  ~ Forall keyword_key (dict_keys es) -> unpack_keywords es = Raise TypeError.
Proof.
  unfold dict_keys. induction es as [|[k v] es IH]; csimpl; intros Hall.
  - exfalso. apply Hall. constructor.
  - destruct k as [| |s|]; try done.
    destruct (decide (s = "original"%string)); [done|].
    rewrite IH; [done|]. intros Hes. apply Hall. constructor; [|done].
    by exists s.
Qed.

(** ** Ordering of keys *)

#[global] Instance comparable_keys_dec ks : Decision (comparable_keys ks).
Proof.
  destruct ks as [|a ks]; [left; left; simpl; lia|].
  destruct (decide (key_class a <> 0 /\
                    Forall (fun k => key_class k = key_class a) ks))
    as [[Ha Hall]|Hn].
  - left. right. exists (key_class a). split; [done|]. by constructor.
  - destruct ks as [|b ks]; [left; left; simpl; lia|].
    right. intros [Hlen|(c & Hc & Hall)]; [simpl in Hlen; lia|].
    apply Forall_cons in Hall as [<- Hall]. by apply Hn.
Defined.

Lemma key_lt_Ok a b :
  key_class a = key_class b -> key_class a <> 0 -> exists r, key_lt a b = Ok r.
Proof. destruct a, b; simpl; try done; eauto. Qed.

Lemma key_lt_Raise a b :
  key_class a <> key_class b \/ key_class a = 0 -> key_lt a b = Raise TypeError.
Proof. destruct a, b; simpl; try done; intros [?|?]; done. Qed.

Lemma key_lt_Ok_class a b r :
  key_lt a b = Ok r -> key_class a = key_class b /\ key_class a <> 0.
Proof. destruct a, b; simpl; try done; intros _; split; done. Qed.

Lemma key_before_irrefl a : ~ key_before a a.
Proof.
  unfold key_before. destruct a as [|z|s|s]; simpl; try done.
  - rewrite Z.ltb_irrefl. done.
  - destruct (String_as_OT.compare s s) eqn:Hc; try done.
    by apply (StrictOrder_Irreflexive (R := String_as_OT.lt)) in Hc.
  - intros [= Hs]. apply bool_decide_eq_true in Hs.
    destruct Hs as [_ Hn]. by apply Hn.
Qed.

Lemma key_before_trans a b c : key_before a b -> key_before b c -> key_before a c.
Proof.
  unfold key_before.
  destruct a as [|x|x|x], b as [|y|y|y], c as [|z|z|z]; simpl; try done.
  - intros [= Hxy] [= Hyz]. f_equal. apply Z.ltb_lt. apply Z.ltb_lt in Hxy, Hyz. lia.
  - intros Hxy Hyz.
    assert (String_as_OT.lt x y) as H1
      by (unfold String_as_OT.lt; by destruct (String_as_OT.compare x y)).
    assert (String_as_OT.lt y z) as H2
      by (unfold String_as_OT.lt; by destruct (String_as_OT.compare y z)).
    pose proof (StrictOrder_Transitive (R := String_as_OT.lt) _ _ _ H1 H2) as H3.
    unfold String_as_OT.lt in H3. by rewrite H3.
  - intros [= Hxy] [= Hyz]. f_equal.
    apply bool_decide_eq_true in Hxy, Hyz. apply bool_decide_eq_true.
    destruct Hxy as [Hxy Hnyx], Hyz as [Hyz Hnzy].
    split; [by etrans|]. intros Hzx. apply Hnzy. by etrans.
Qed.

Lemma comparable_keys_submseteq ks ks' :
  ks' ⊆+ ks -> comparable_keys ks -> comparable_keys ks'.
Proof.
  intros Hsub [Hlen|(c & Hc & Hall)].
  - left. apply submseteq_length in Hsub. lia.
  - right. exists c. split; [done|]. rewrite Forall_forall in *.
    intros k Hk. apply Hall. by eapply elem_of_submseteq.
Qed.

Lemma comparable_keys_perm ks ks' :
  ks ≡ₚ ks' -> comparable_keys ks -> comparable_keys ks'.
Proof. intros Hp. apply comparable_keys_submseteq. by rewrite Hp. Qed.

Lemma mutually_orderable_comparable ks :
  NoDup ks -> mutually_orderable ks -> comparable_keys ks.
Proof.
  intros Hnd Hord. destruct ks as [|a [|b ks]]; [left; simpl; lia..|].
  right. apply NoDup_cons in Hnd as [Ha Hnd].
  assert (a <> b) as Hab by (intros ->; apply Ha; left).
  assert (forall k, k ∈ a :: b :: ks -> k <> a ->
                    key_class k = key_class a /\ key_class a <> 0) as Hcls.
  { intros k Hk Hne.
    destruct (Hord k a) as [Hlt|Hlt]; [done | left | done | |];
      apply key_lt_Ok_class in Hlt as [Heq Hnz]; split; congruence. }
  exists (key_class a). split.
  - destruct (Hcls b) as [_ ?]; [right; left | done | done].
  - apply Forall_forall. intros k Hk.
    destruct (decide (k = a)) as [->|Hne]; [done|]. by apply Hcls.
Qed.

Lemma unsupported_not_comparable ks a b :
  a ∈ ks -> b ∈ ks -> a <> b -> key_lt a b = Raise TypeError ->
  ~ comparable_keys ks.
Proof.
  intros Ha Hb Hab Hlt [Hlen|(c & Hc & Hall)].
  - destruct ks as [|x [|y ks]]; simpl in Hlen; [| |lia].
    + by apply elem_of_nil in Ha.
    + apply list_elem_of_singleton in Ha, Hb. congruence.
  - rewrite Forall_forall in Hall.
    destruct (key_lt_Ok a b) as [r Hr]; [| |congruence].
    + rewrite (Hall a), (Hall b); done.
    + by rewrite (Hall a).
Qed.

(** ** The insertion sort *)

Section sort_facts.
Context {A : Type} (lt : A -> A -> res bool).

Lemma insert_sorted_perm x l r :
  insert_sorted lt x l = Ok r -> r ≡ₚ x :: l.
Proof.
  revert r. induction l as [|y l IH]; intros r; simpl.
  - by intros [= <-].
  - destruct (lt x y) as [[|]|]; simpl; [by intros [= <-]| |done].
    destruct (insert_sorted lt x l) as [r'|]; [|done]. simpl.
    intros [= <-]. rewrite (IH r') by done. apply Permutation_swap.
Qed.

Lemma sort_onto_perm acc l r :
  sort_onto lt acc l = Ok r -> r ≡ₚ acc ++ l.
Proof.
  revert acc. induction l as [|x l IH]; intros acc; simpl.
  - intros [= <-]. by rewrite app_nil_r.
  - destruct (insert_sorted lt x acc) as [acc'|] eqn:Hins; [|done]. simpl.
    intros Hs. rewrite (IH _ Hs), (insert_sorted_perm _ _ _ Hins).
    simpl. apply Permutation_middle.
Qed.

(** Two comparison functions that agree on the pairs the sort looks at
    sort alike. *)
Lemma insert_sorted_ext (lt' : A -> A -> res bool) x l :
  (forall y, y ∈ l -> lt x y = lt' x y) ->
  insert_sorted lt x l = insert_sorted lt' x l.
Proof.
  induction l as [|y l IH]; intros Hext; simpl; [done|].
  rewrite <- Hext by left. rewrite IH; [done|].
  intros z Hz. apply Hext. by right.
Qed.

Lemma sort_onto_ext (lt' : A -> A -> res bool) acc l :
  (forall a b, a ∈ acc ++ l -> b ∈ acc ++ l -> a <> b -> lt a b = lt' a b) ->
  NoDup (acc ++ l) ->
  sort_onto lt acc l = sort_onto lt' acc l.
Proof.
  revert acc. induction l as [|x l IH]; intros acc Hext Hnd; simpl; [done|].
  assert (insert_sorted lt x acc = insert_sorted lt' x acc) as Hins.
  { apply insert_sorted_ext. intros y Hy. apply Hext.
    - apply elem_of_app. right. left.
    - apply elem_of_app. by left.
    - intros ->. apply NoDup_app in Hnd as (_ & Hdisj & _).
      apply (Hdisj y); [done | left]. }
  rewrite <- Hins. destruct (insert_sorted lt x acc) as [acc'|] eqn:Hacc; [|done].
  simpl. apply insert_sorted_perm in Hacc.
  assert (acc' ++ l ≡ₚ acc ++ x :: l) as Hp
    by (rewrite Hacc; simpl; apply Permutation_middle).
  apply IH.
  - intros a b Ha Hb. apply Hext; by rewrite <- Hp.
  - by rewrite Hp.
Qed.
End sort_facts.

Section item_sort.
Context {V : Type}.
Implicit Types (x : key * V) (acc l r : list (key * V)).

Lemma insert_items_Ok x acc :
  comparable_keys (dict_keys (x :: acc)) ->
  exists r, insert_sorted item_key_lt x acc = Ok r.
Proof.
  unfold dict_keys. intros [Hlen|(c & Hc & Hall)].
  - destruct acc; [by eexists | simpl in Hlen; lia].
  - csimpl in Hall. apply Forall_cons in Hall as [Hx Hall].
    induction acc as [|y acc IH]; simpl; [by eexists|].
    csimpl in Hall. apply Forall_cons in Hall as [Hy Hall].
    unfold item_key_lt at 1.
    destruct (key_lt_Ok x.1 y.1) as [b ->]; [congruence..|]. simpl.
    destruct b; [by eexists|]. destruct (IH Hall) as [r ->]. by eexists.
Qed.

Lemma insert_items_Raise x acc :
  comparable_keys (dict_keys acc) ->
  ~ comparable_keys (dict_keys (x :: acc)) ->
  insert_sorted item_key_lt x acc = Raise TypeError.
Proof.
  unfold dict_keys. intros Hacc Hn.
  destruct acc as [|y acc]; [exfalso; apply Hn; left; simpl; lia|].
  simpl. unfold item_key_lt at 1.
  destruct (decide (key_class x.1 = key_class y.1 /\ key_class x.1 <> 0))
    as [[Heq Hnz]|Hcls].
  - exfalso. apply Hn. right. exists (key_class x.1). split; [done|].
    csimpl. constructor; [done|]. constructor; [done|].
    destruct Hacc as [Hlen|(c & Hc & Hall)].
    + destruct acc; [constructor | simpl in Hlen; lia].
    + csimpl in Hall. apply Forall_cons in Hall as [Hy Hall].
      eapply Forall_impl; [done|]. intros k Hk. cbv beta in Hk. congruence.
  - rewrite key_lt_Raise; [done|].
    destruct (decide (key_class x.1 = key_class y.1)); [|by left].
    right. destruct (decide (key_class x.1 = 0)); [done|]. tauto.
Qed.

(** The sort succeeds exactly when the keys are pairwise comparable. *)
Lemma sort_items_Ok acc l :
  comparable_keys (dict_keys (acc ++ l)) ->
  exists r, sort_onto item_key_lt acc l = Ok r.
Proof.
  revert acc. induction l as [|x l IH]; intros acc Hc; simpl; [by eexists|].
  destruct (insert_items_Ok x acc) as [acc' Hins].
  { revert Hc. apply comparable_keys_submseteq. unfold dict_keys.
    rewrite fmap_app. csimpl. rewrite <- Permutation_middle.
    apply submseteq_skip, submseteq_inserts_r. done. }
  rewrite Hins. simpl. apply IH.
  revert Hc. apply comparable_keys_perm. unfold dict_keys.
  apply insert_sorted_perm in Hins.
  rewrite !fmap_app, Hins. csimpl. by rewrite Permutation_middle.
Qed.

Lemma sort_items_Raise acc l :
  comparable_keys (dict_keys acc) ->
  ~ comparable_keys (dict_keys (acc ++ l)) ->
  sort_onto item_key_lt acc l = Raise TypeError.
Proof.
  revert acc. induction l as [|x l IH]; intros acc Hacc Hn; simpl.
  { exfalso. apply Hn. by rewrite app_nil_r. }
  destruct (decide (comparable_keys (dict_keys (x :: acc)))) as [Hc|Hc].
  - destruct (insert_items_Ok x acc Hc) as [acc' Hins]. rewrite Hins. simpl.
    apply insert_sorted_perm in Hins. apply IH.
    + revert Hc. apply comparable_keys_perm. unfold dict_keys. by rewrite Hins.
    + intros Hc'. apply Hn. revert Hc'. apply comparable_keys_perm.
      unfold dict_keys. rewrite !fmap_app, Hins. csimpl.
      by rewrite Permutation_middle.
  - by rewrite insert_items_Raise.
Qed.
End item_sort.

Lemma dict_get_perm {V} k (l l' : list (key * V)) :
  NoDup (dict_keys l) -> l ≡ₚ l' -> dict_get k l = dict_get k l'.
Proof.
  intros Hnd Hp.
  assert (NoDup (dict_keys l')) as Hnd'
    by (unfold dict_keys in *; by rewrite <- Hp).
  destruct (dict_get k l) as [v|] eqn:Hg; symmetry.
  - apply dict_get_NoDup; [done|]. rewrite <- Hp. by apply dict_get_elem_of.
  - apply dict_get_None. apply dict_get_None in Hg.
    unfold dict_keys in *. by rewrite <- Hp.
Qed.

Section item_order.
Context {V : Type}.
Implicit Types (x : key * V) (acc l r : list (key * V)).

Lemma insert_items_sorted x acc r :
  StronglySorted item_before acc ->
  (forall y, y ∈ acc -> key_before x.1 y.1 \/ key_before y.1 x.1) ->
  insert_sorted item_key_lt x acc = Ok r ->
  StronglySorted item_before r.
Proof.
  revert r. induction acc as [|y acc IH]; intros r Hs Htot; simpl.
  - intros [= <-]. repeat constructor.
  - apply StronglySorted_cons in Hs as [Hy Hs].
    unfold item_key_lt at 1.
    destruct (key_lt x.1 y.1) as [[|]|] eqn:Hxy; simpl; [| |done].
    + intros [= <-]. apply StronglySorted_cons. split.
      * constructor; [done|]. eapply Forall_impl; [done|].
        intros z Hz. by eapply key_before_trans.
      * by apply StronglySorted_cons.
    + destruct (insert_sorted item_key_lt x acc) as [r'|] eqn:Hins; [|done].
      simpl. intros [= <-].
      assert (key_before y.1 x.1) as Hyx.
      { destruct (Htot y) as [Hlt|Hlt]; [left | | done].
        unfold key_before in Hlt. congruence. }
      apply StronglySorted_cons. split.
      * apply insert_sorted_perm in Hins. rewrite Hins. by constructor.
      * apply IH; [done | | done]. intros z Hz. apply Htot. by right.
Qed.

Lemma sort_items_sorted acc l r :
  StronglySorted item_before acc ->
  NoDup (dict_keys (acc ++ l)) ->
  mutually_orderable (dict_keys (acc ++ l)) ->
  sort_onto item_key_lt acc l = Ok r ->
  StronglySorted item_before r.
Proof.
  revert acc. induction l as [|x l IH]; intros acc Hs Hnd Hord; simpl.
  { by intros [= <-]. }
  destruct (insert_sorted item_key_lt x acc) as [acc'|] eqn:Hins; [|done].
  simpl. pose proof (insert_sorted_perm _ _ _ _ Hins) as Hp.
  assert (dict_keys (acc' ++ l) ≡ₚ dict_keys (acc ++ x :: l)) as Hpk.
  { unfold dict_keys. rewrite !fmap_app, Hp. csimpl.
    apply Permutation_middle. }
  apply IH.
  - eapply insert_items_sorted; [done | | done].
    intros y Hy. apply Hord.
    + unfold dict_keys. apply list_elem_of_fmap. exists x. split; [done|].
      apply elem_of_app. right. left.
    + unfold dict_keys. apply list_elem_of_fmap. exists y. split; [done|].
      apply elem_of_app. by left.
    + unfold dict_keys in Hnd. rewrite fmap_app in Hnd.
      apply NoDup_app in Hnd as (_ & Hdisj & _). intros Heq.
      apply (Hdisj y.1).
      * apply list_elem_of_fmap. by exists y.
      * rewrite <- Heq. csimpl. left.
  - by rewrite Hpk.
  - intros a b Ha Hb. apply Hord; by rewrite <- Hpk.
Qed.

Lemma sorted_keys_unique l1 l2 :
  StronglySorted item_before l1 -> StronglySorted item_before l2 ->
  dict_keys l1 ≡ₚ dict_keys l2 -> dict_keys l1 = dict_keys l2.
Proof.
  intros H1 H2. unfold dict_keys.
  apply (StronglySorted_unique_strong key_before).
  - intros a b _ _ Hab Hba. exfalso.
    apply (key_before_irrefl a). by eapply key_before_trans.
  - eapply StronglySorted_fmap; [|done]. auto.
  - eapply StronglySorted_fmap; [|done]. auto.
Qed.
End item_order.

(** ** Equality of frozen forms *)

Lemma py_eq_tuple xs ys :
  py_eq (TTuple xs) (TTuple ys) = true <->
  Forall2 (fun a b => py_eq a b = true) xs ys.
Proof.
  revert ys. induction xs as [|x xs IH]; intros [|y ys]; simpl.
  - split; [constructor | done].
  - split; [done | inversion 1].
  - split; [done | inversion 1].
  - rewrite andb_true_iff. split.
    + intros [Hx Hxs]. constructor; [done|]. by apply IH.
    + inversion 1; subst. split; [done|]. by apply IH.
Qed.

Lemma py_eq_key a b : py_eq (key_tree a) (key_tree b) = true <-> a = b.
Proof.
  destruct a, b; simpl; try (split; [done | congruence]);
    rewrite bool_decide_eq_true; split; congruence.
Qed.

Lemma py_eq_item a b : py_eq (item_tree a) (item_tree b) = true <-> item_eq a b.
Proof.
  unfold item_tree, item_eq. rewrite py_eq_tuple. split.
  - intros Hall. inversion Hall as [|? ? ? ? Hk Hrest]; subst.
    inversion Hrest as [|? ? ? ? Hv _]; subst. split; [|done].
    by apply py_eq_key.
  - intros [Hk Hv]. repeat constructor; [|done]. by apply py_eq_key.
Qed.

Lemma py_eq_items xs ys :
  py_eq (TTuple (map item_tree xs)) (TTuple (map item_tree ys)) = true <->
  Forall2 item_eq xs ys.
Proof.
  rewrite py_eq_tuple. split.
  - revert ys. induction xs as [|x xs IH]; intros [|y ys] Hall;
      inversion Hall; subst; constructor; [by apply py_eq_item | auto].
  - induction 1; simpl; constructor; [by apply py_eq_item | done].
Qed.

Lemma item_eq_dict_get k xs ys :
  Forall2 item_eq xs ys ->
  option_Forall2 (fun a b => py_eq a b = true) (dict_get k xs) (dict_get k ys).
Proof.
  induction 1 as [|[k1 a] [k2 b] xs ys [Hk Hv] _ IH]; simpl in *.
  - constructor.
  - subst. destruct (decide (k2 = k)); [by constructor | done].
Qed.

(** Sorted item lists are equal as frozen forms exactly when the
    mappings they come from hold the same pairs. *)
Lemma sorted_items_canonical t1 t2 tr1 tr2 :
  NoDup (dict_keys t1) -> NoDup (dict_keys t2) ->
  tr1 ≡ₚ t1 -> tr2 ≡ₚ t2 ->
  StronglySorted item_before tr1 -> StronglySorted item_before tr2 ->
  Forall2 item_eq tr1 tr2 <-> same_items t1 t2.
Proof.
  intros Hnd1 Hnd2 Hp1 Hp2 Hs1 Hs2.
  assert (NoDup (dict_keys tr1)) as Hndr1
    by (unfold dict_keys in *; by rewrite Hp1).
  assert (NoDup (dict_keys tr2)) as Hndr2
    by (unfold dict_keys in *; by rewrite Hp2).
  assert (same_items t1 t2 <-> same_items tr1 tr2) as ->.
  { unfold same_items. split; intros Hsame k; specialize (Hsame k).
    - by rewrite (dict_get_perm k tr1 t1), (dict_get_perm k tr2 t2).
    - by rewrite (dict_get_perm k tr1 t1), (dict_get_perm k tr2 t2) in Hsame. }
  split; [intros Hall k; by apply item_eq_dict_get|].
  intros Hsame.
  assert (dict_keys tr1 = dict_keys tr2) as Hkeys.
  { apply sorted_keys_unique; [done..|].
    apply NoDup_Permutation; [done..|]. intros k.
    rewrite <- !dict_get_is_Some. specialize (Hsame k).
    destruct Hsame; split; intros [? ?]; by eauto. }
  apply Forall2_same_length_lookup. split.
  { unfold dict_keys in Hkeys.
    by rewrite <- (length_fmap fst tr1), Hkeys, length_fmap. }
  intros i [k1 a] [k2 b] Hi1 Hi2.
  assert (k1 = k2) as <-.
  { assert (dict_keys tr1 !! i = Some k1) as Hk1
      by (unfold dict_keys; by rewrite list_lookup_fmap, Hi1).
    assert (dict_keys tr2 !! i = Some k2) as Hk2
      by (unfold dict_keys; by rewrite list_lookup_fmap, Hi2).
    congruence. }
  split; [done|]. simpl. specialize (Hsame k1).
  rewrite (dict_get_NoDup k1 a tr1), (dict_get_NoDup k1 b tr2) in Hsame;
    [by inversion Hsame | done | by eapply list_elem_of_lookup_2 | done
     | by eapply list_elem_of_lookup_2].
Qed.

(** ** Freeze on the store *)

Lemma NoDup_keys_inj {V} (es : list (key * V)) a b :
  NoDup (dict_keys es) -> a ∈ es -> b ∈ es -> a.1 = b.1 -> a = b.
Proof.
  intros Hnd Ha Hb Heq. destruct a as [k v], b as [k' v']. simpl in *. subst.
  f_equal. apply (dict_get_NoDup _ _ _ Hnd) in Ha, Hb. congruence.
Qed.

Section freeze_facts.
Variable value_lt : heap -> val -> val -> res bool.

(** With distinct keys the values never take part in the comparison. *)
Lemma sorted_item_lt h es :
  NoDup (dict_keys es) ->
  sorted (item_lt value_lt h) es = sorted item_key_lt es.
Proof.
  intros Hnd. unfold sorted. apply sort_onto_ext; simpl.
  - intros a b Ha Hb Hne. unfold item_lt, item_key_lt.
    rewrite decide_False; [done|]. intros Heq. apply Hne.
    by eapply NoDup_keys_inj.
  - unfold dict_keys in Hnd. by eapply NoDup_fmap_1.
Qed.

Lemma freeze_dict_Ok h d es :
  read_dict h d = Some es -> NoDup (dict_keys es) ->
  comparable_keys (dict_keys es) ->
  exists r, sorted item_key_lt es = Ok r /\
            freeze_dict value_lt h d = Some (Ok (VTuple (map item_tuple r))).
Proof.
  intros Hd Hnd Hc. unfold freeze_dict. rewrite Hd. simpl.
  rewrite sorted_item_lt by done.
  destruct (sort_items_Ok [] es Hc) as [r Hr]. exists r.
  unfold sorted. by rewrite Hr.
Qed.

Lemma freeze_dict_Raise h d es :
  read_dict h d = Some es -> NoDup (dict_keys es) ->
  ~ comparable_keys (dict_keys es) ->
  freeze_dict value_lt h d = Some (Raise TypeError).
Proof.
  intros Hd Hnd Hc. unfold freeze_dict. rewrite Hd. simpl.
  rewrite sorted_item_lt by done. unfold sorted.
  rewrite sort_items_Raise; [done | left; simpl; lia | done].
Qed.
End freeze_facts.

Lemma insert_sorted_rel R x tx acc tacc r :
  entry_rel R x tx -> Forall2 (entry_rel R) acc tacc ->
  insert_sorted item_key_lt x acc = Ok r ->
  exists tr, insert_sorted item_key_lt tx tacc = Ok tr /\
             Forall2 (entry_rel R) r tr.
Proof.
  intros Hx Hacc. revert r.
  induction Hacc as [|y ty acc tacc Hy Hacc IH]; intros r; simpl.
  - intros [= <-]. eexists. split; [done|]. by constructor.
  - unfold item_key_lt at 1 3. destruct Hx as [Hkx Hvx], Hy as [Hky Hvy].
    rewrite <- Hkx, <- Hky.
    destruct (key_lt x.1 y.1) as [[|]|]; simpl; [| |done].
    + intros [= <-]. eexists. split; [done|]. by repeat constructor.
    + destruct (insert_sorted item_key_lt x acc) as [r'|]; [|done]. simpl.
      intros [= <-]. destruct (IH r') as (tr' & -> & Hr'); [done|]. simpl.
      eexists. split; [done|]. by repeat constructor.
Qed.

Lemma sort_onto_rel R acc tacc l tl r :
  Forall2 (entry_rel R) acc tacc -> Forall2 (entry_rel R) l tl ->
  sort_onto item_key_lt acc l = Ok r ->
  exists tr, sort_onto item_key_lt tacc tl = Ok tr /\
             Forall2 (entry_rel R) r tr.
Proof.
  intros Hacc Hl. revert acc tacc Hacc r.
  induction Hl as [|x tx l tl Hx Hl IH]; intros acc tacc Hacc r; simpl.
  - intros [= <-]. eauto.
  - destruct (insert_sorted item_key_lt x acc) as [acc'|] eqn:Hins; [|done].
    simpl. intros Hs.
    destruct (insert_sorted_rel R _ _ _ _ _ Hx Hacc Hins) as (tacc' & -> & Hacc').
    simpl. by eapply IH.
Qed.

Lemma repr_key P h k : repr P h (key_val k) (key_tree k).
Proof. destruct k; constructor. Qed.

Lemma repr_items P h r tr :
  Forall2 (entry_rel (repr P h)) r tr ->
  repr P h (VTuple (map item_tuple r)) (TTuple (map item_tree tr)).
Proof.
  intros Hall. constructor.
  induction Hall as [|x tx r tr [Hk Hv] _ IH]; simpl; constructor; [|done].
  unfold item_tuple, item_tree. rewrite Hk. constructor.
  repeat constructor; [apply repr_key | done].
Qed.

(** ** Merged mappings key by key *)

Lemma DeepMerge_spec_keys k tb to :
  k ∈ dict_keys (DeepMerge_spec tb to) <->
  k ∈ dict_keys tb \/ k ∈ dict_keys to.
Proof.
  rewrite DeepMerge_spec_fold. revert tb.
  induction to as [|[k' v'] to IH]; intros tb; simpl.
  - split; [by left|]. intros [?|Hin]; [done|].
    unfold dict_keys in Hin. by apply elem_of_nil in Hin.
  - rewrite IH. unfold merge_step. simpl. rewrite dict_keys_set. split.
    + intros [[->|?]|?]; [right | by left | right].
      * unfold dict_keys. csimpl. left.
      * unfold dict_keys in *. csimpl. by right.
    + intros [?|Hin]; [by left; right|].
      unfold dict_keys in Hin. csimpl in Hin.
      apply elem_of_cons in Hin as [->|?]; [left; by left | by right].
Qed.

Lemma DeepMerge_spec_get k tb to :
  NoDup (dict_keys to) ->
  dict_get k (DeepMerge_spec tb to) =
  match dict_get k to with
  | Some vo => Some (merge_value vo (dict_get k tb))
  | None => dict_get k tb
  end.
Proof.
  rewrite DeepMerge_spec_fold. intros Hnd. revert tb.
  induction to as [|[k' v'] to IH]; intros tb; simpl; [done|].
  unfold dict_keys in Hnd. csimpl in Hnd. apply NoDup_cons in Hnd as [Hk' Hnd].
  rewrite IH by done. unfold merge_step. simpl.
  destruct (decide (k' = k)) as [->|Hne].
  - apply dict_get_None in Hk'. rewrite Hk'. apply dict_get_set_eq.
  - by rewrite dict_get_set_ne.
Qed.

(** ** Reachable locations and mutation *)

Lemma Forall2_elem_of_l {A B} (R : A -> B -> Prop) l k x :
  Forall2 R l k -> x ∈ l -> exists y, y ∈ k /\ R x y.
Proof.
  intros Hall Hx. apply list_elem_of_lookup_1 in Hx as [i Hi].
  destruct (Forall2_lookup_l _ _ _ _ _ Hall Hi) as (y & Hy & HR).
  exists y. split; [by eapply list_elem_of_lookup_2 | done].
Qed.

Lemma repr_members P (h : heap) v t :
  repr P h v t ->
  match v with
  | VTuple vs => exists ts, Forall2 (repr P h) vs ts
  | VRef l =>
      P l /\
      match h !! l with
      | Some (OList vs) => exists ts, Forall2 (repr P h) vs ts
      | Some (ODict es) => exists tes, Forall2 (entry_rel (repr P h)) es tes
      | Some (OSet _) => True
      | None => False
      end
  | _ => True
  end.
Proof.
  destruct 1 as [| | | | |vs ts Hall|l vs ts HP Hl Hall|l es tes HP Hl Hall|l s HP Hl];
    try done; try rewrite Hl; eauto.
Qed.

Lemma repr_reach P h v t l : repr P h v t -> reach h v l -> P l.
Proof.
  intros Hr Hreach. revert t Hr.
  induction Hreach as [l|vs v l Hv _ IH|l0 vs v l Hl0 Hv _ IH|l0 es k v l Hl0 Hv _ IH];
    intros t Hr; apply repr_members in Hr.
  - by destruct Hr.
  - destruct Hr as [ts Hall].
    destruct (Forall2_elem_of_l _ _ _ _ Hall Hv) as (t' & _ & Ht'). eauto.
  - destruct Hr as [_ Hr]. rewrite Hl0 in Hr. destruct Hr as [ts Hall].
    destruct (Forall2_elem_of_l _ _ _ _ Hall Hv) as (t' & _ & Ht'). eauto.
  - destruct Hr as [_ Hr]. rewrite Hl0 in Hr. destruct Hr as [tes Hall].
    destruct (Forall2_elem_of_l _ _ _ _ Hall Hv) as (t' & _ & [_ Ht']). eauto.
Qed.

Lemma insert_app_new (h ext : heap) l o :
  length h <= l -> exists ext', <[l := o]> (h ++ ext) = h ++ ext'.
Proof.
  intros Hl. exists (<[l - length h := o]> ext). by apply insert_app_r_alt.
Qed.

(** A nested member of a mapping is not the mapping itself. *)
Lemma repr_member_ne P h lm es tm k ln :
  repr P h (VRef lm) (TDict tm) -> h !! lm = Some (ODict es) ->
  dict_get k es = Some (VRef ln) -> ln <> lm.
Proof.
  intros Hr Hlm Hk Heq. subst ln. pose proof Hr as Hr0.
  apply repr_dict_inv in Hr as (l & es' & [= <-] & _ & Hl & Hes).
  assert (es' = es) as -> by congruence.
  pose proof (entries_dict_get _ k _ _ Hes) as Hget. rewrite Hk in Hget.
  inversion Hget as [? tn Hn Heq1 Heq2|]; subst.
  assert (tn = TDict tm) as -> by (by eapply repr_functional).
  symmetry in Heq2. apply dict_get_elem_of, list_elem_of_In in Heq2.
  pose proof (tree_depth_dict_lt tm) as Hlt. rewrite List.Forall_forall in Hlt.
  specialize (Hlt _ Heq2). simpl in Hlt. lia.
Qed.

(** After a write to a member shared with a mapping, the mapping denotes
    the member's new value at that key. *)
Lemma shared_member_write P (h : heap) lm es k ln o' tm' tn' :
  ln <> lm -> h !! lm = Some (ODict es) -> dict_get k es = Some (VRef ln) ->
  repr P (<[ln := o']> h) (VRef lm) (TDict tm') ->
  repr P (<[ln := o']> h) (VRef ln) tn' ->
  dict_get k tm' = Some tn'.
Proof.
  intros Hne Hlm Hk Hm Hn.
  apply repr_dict_inv in Hm as (l & es' & [= <-] & _ & Hl & Hes).
  rewrite list_lookup_insert_ne in Hl by done.
  assert (es' = es) as -> by congruence.
  pose proof (entries_dict_get _ k _ _ Hes) as Hget. rewrite Hk in Hget.
  inversion Hget as [? tn Hn' Heq1 Heq2|]; subst.
  f_equal. by eapply repr_functional.
Qed.

(** * The claims *)

Ltac by_reify := apply (reify_sound 5); vm_compute; reflexivity.
Ltac by_decide :=
  match goal with |- ?P => apply (bool_decide_unpack P); vm_compute; exact I end.

(** C1.  For every pair of mappings [base] and [override],
    [deep_merge_dicts] returns a mapping that denotes [DeepMerge_spec]:
    start from (a deep copy of) [base] and, for each item [(k, v)] of
    [override] in order, merge recursively when [k] is present and both the
    current value and [v] are mappings, else store (a deep copy of) [v].
    On the example of the docstring the result is the expected mapping. *)
Theorem deep_merge_dicts_is_DeepMerge :
  (forall (h : heap) base override tb to fuel,
      repr anywhere h base (TDict tb) ->
      repr anywhere h override (TDict to) ->
      tree_depth (TDict tb) <= fuel -> tree_depth (TDict to) <= fuel ->
      exists r ext,
        deep_merge_dicts fuel h base override = Some (r, h ++ ext) /\
        repr anywhere (h ++ ext) r (TDict (DeepMerge_spec tb to))) /\
  run_deep_merge 3 db_base db_override = Some db_merged.
Proof.
  split; [|vm_compute; reflexivity].
  intros h base override tb to fuel Hb Ho Hdb Hdo.
  destruct (deep_merge_correct fuel h base override tb to Hb Ho Hdb Hdo)
    as (r & ext & Heq & Hr).
  exists r, ext. split; [done|]. by eapply repr_anywhere.
Qed.

Lemma deep_merge_dicts_is_DeepMerge_witness :
  repr anywhere db_state.2 db_state.1.1 (TDict db_base_items) /\
  repr anywhere db_state.2 db_state.1.2 (TDict db_override_items) /\
  exists r ext,
    deep_merge_dicts 3 db_state.2 db_state.1.1 db_state.1.2 =
      Some (r, db_state.2 ++ ext) /\
    repr anywhere (db_state.2 ++ ext) r
         (TDict (DeepMerge_spec db_base_items db_override_items)).
Proof.
  split; [by_reify|]. split; [by_reify|].
  apply (proj1 deep_merge_dicts_is_DeepMerge); [by_reify | by_reify | |];
    vm_compute; lia.
Defined.

(** C2.  [deep_merge_dicts] mutates neither argument: the store after the
    call is the store before it followed by new objects, so [base] and
    [override] denote what they denoted before, and every container
    reachable from the result is a new one. *)
Theorem deep_merge_dicts_frame (h : heap) base override tb to fuel :
  repr anywhere h base (TDict tb) ->
  repr anywhere h override (TDict to) ->
  tree_depth (TDict tb) <= fuel -> tree_depth (TDict to) <= fuel ->
  exists r ext,
    deep_merge_dicts fuel h base override = Some (r, h ++ ext) /\
    (forall l o, h !! l = Some o -> (h ++ ext) !! l = Some o) /\
    repr anywhere (h ++ ext) base (TDict tb) /\
    repr anywhere (h ++ ext) override (TDict to) /\
    (forall l, reach (h ++ ext) r l -> length h <= l).
Proof.
  intros Hb Ho Hdb Hdo.
  destruct (deep_merge_correct fuel h base override tb to Hb Ho Hdb Hdo)
    as (r & ext & Heq & Hr).
  exists r, ext. split; [done|]. split.
  { intros l o Hl. by apply lookup_app_l_Some. }
  split; [by apply repr_app|]. split; [by apply repr_app|].
  intros l Hl. by destruct (repr_reach _ _ _ _ _ Hr Hl).
Qed.

Lemma deep_merge_dicts_frame_witness :
  repr anywhere db_state.2 db_state.1.1 (TDict db_base_items) /\
  repr anywhere db_state.2 db_state.1.2 (TDict db_override_items) /\
  exists r ext,
    deep_merge_dicts 3 db_state.2 db_state.1.1 db_state.1.2 =
      Some (r, db_state.2 ++ ext) /\
    (forall l o, db_state.2 !! l = Some o -> (db_state.2 ++ ext) !! l = Some o) /\
    repr anywhere (db_state.2 ++ ext) db_state.1.1 (TDict db_base_items) /\
    repr anywhere (db_state.2 ++ ext) db_state.1.2 (TDict db_override_items) /\
    (forall l, reach (db_state.2 ++ ext) r l -> length db_state.2 <= l).
Proof.
  split; [by_reify|]. split; [by_reify|].
  apply deep_merge_dicts_frame; [by_reify | by_reify | |]; vm_compute; lia.
Defined.

(** C4.  At a key present in both mappings whose two values are not both
    mappings, [deep_merge_dicts] succeeds and the result holds at that key
    a new value of exactly the shape of [override]'s value: replacement,
    no element-wise merge, no error.  On the example a mapping is replaced
    by the sequence. *)
Theorem deep_merge_dicts_replaces :
  (forall (h : heap) base override tb to fuel k vb vo,
      repr anywhere h base (TDict tb) ->
      repr anywhere h override (TDict to) ->
      tree_depth (TDict tb) <= fuel -> tree_depth (TDict to) <= fuel ->
      NoDup (dict_keys to) ->
      dict_get k tb = Some vb -> dict_get k to = Some vo ->
      ~ ((exists es, vo = TDict es) /\ (exists es, vb = TDict es)) ->
      exists r ext er x,
        deep_merge_dicts fuel h base override = Some (r, h ++ ext) /\
        read_dict (h ++ ext) r = Some er /\
        dict_get k er = Some x /\
        repr (between (length h) (length (h ++ ext))) (h ++ ext) x vo) /\
  run_deep_merge 3 x_mapping x_sequence = Some x_sequence.
Proof.
  split; [|vm_compute; reflexivity].
  intros h base override tb to fuel k vb vo Hb Ho Hdb Hdo Hnd Hkb Hko Hn.
  destruct (deep_merge_correct fuel h base override tb to Hb Ho Hdb Hdo)
    as (r & ext & Heq & Hr).
  apply repr_dict_inv in Hr as (lr & er & -> & _ & Hlr & Her).
  pose proof (entries_dict_get _ k _ _ Her) as Hget.
  rewrite DeepMerge_spec_get, Hko, Hkb in Hget by done.
  rewrite merge_value_replace in Hget.
  2:{ intros [Hvo [es [= ->]]]. apply Hn. eauto. }
  inversion Hget as [x ? Hx Hxe|]; subst.
  exists (VRef lr), ext, er, x. split; [done|].
  split; [by apply read_dict_lookup|]. by split.
Qed.

Lemma deep_merge_dicts_replaces_witness :
  repr anywhere x_state.2 x_state.1.1 (TDict x_mapping_items) /\
  repr anywhere x_state.2 x_state.1.2 (TDict x_sequence_items) /\
  exists r ext er x,
    deep_merge_dicts 3 x_state.2 x_state.1.1 x_state.1.2 =
      Some (r, x_state.2 ++ ext) /\
    read_dict (x_state.2 ++ ext) r = Some er /\
    dict_get (KStr "x") er = Some x /\
    repr (between (length x_state.2) (length (x_state.2 ++ ext)))
         (x_state.2 ++ ext) x (TList [TInt 1; TInt 2]).
Proof.
  split; [by_reify|]. split; [by_reify|].
  apply (proj1 deep_merge_dicts_replaces _ _ _ x_mapping_items x_sequence_items
           3 (KStr "x") (TDict [(KStr "a", TInt 1)]));
    [by_reify | by_reify | vm_compute; lia | vm_compute; lia | | | |].
  - by_decide.
  - reflexivity.
  - reflexivity.
  - intros [[es Hes] _]. discriminate Hes.
Defined.

(** C5.  For a mapping [m]: writing to any container of [deep_copy m],
    at any depth, leaves [m] denoting what it denoted; [shallow_copy m] has
    the very members of [m], so a write to a nested member reached through
    the copy changes what [m] denotes at that key; and replacing the
    copy's own entries (adding, removing or reassigning top-level keys)
    leaves [m] as it was. *)
Theorem copy_independence (h : heap) m tm :
  repr anywhere h m (TDict tm) ->
  (forall fuel, tree_depth (TDict tm) <= fuel ->
     exists c ext,
       deep_copy fuel h m = Some (c, h ++ ext) /\
       repr anywhere (h ++ ext) c (TDict tm) /\
       forall l o', reach (h ++ ext) c l ->
                    length h <= l /\
                    repr anywhere (<[l := o']> (h ++ ext)) m (TDict tm)) /\
  (exists es,
     read_dict h m = Some es /\
     shallow_copy h m = Some (VRef (length h), h ++ [ODict es]) /\
     (forall k ln o' tm' tn',
         dict_get k es = Some (VRef ln) ->
         repr anywhere (<[ln := o']> (h ++ [ODict es])) m (TDict tm') ->
         repr anywhere (<[ln := o']> (h ++ [ODict es])) (VRef ln) tn' ->
         dict_get k tm' = Some tn') /\
     (forall k ln tn o' tn',
         dict_get k es = Some (VRef ln) -> dict_get k tm = Some tn ->
         repr anywhere (<[ln := o']> (h ++ [ODict es])) (VRef ln) tn' ->
         tn' <> tn ->
         ~ repr anywhere (<[ln := o']> (h ++ [ODict es])) m (TDict tm)) /\
     (forall es',
         repr anywhere (<[length h := ODict es']> (h ++ [ODict es])) m
              (TDict tm))).
Proof.
  intros Hm. split.
  - intros fuel Hd.
    destruct (deep_copy_correct fuel _ h m _ Hm Hd) as (c & ext & Heq & Hc).
    exists c, ext. split; [done|]. split; [by eapply repr_anywhere|].
    intros l o' Hl. destruct (repr_reach _ _ _ _ _ Hc Hl) as [Hlo _].
    split; [done|]. destruct (insert_app_new h ext l o' Hlo) as [ext' ->].
    by apply repr_app.
  - pose proof Hm as Hm0.
    apply repr_dict_inv in Hm as (lm & es & -> & _ & Hlm & Hes).
    exists es. split; [by apply read_dict_lookup|].
    split; [simpl; by rewrite Hlm|].
    assert (forall k ln o' tm' tn',
               dict_get k es = Some (VRef ln) ->
               repr anywhere (<[ln := o']> (h ++ [ODict es])) (VRef lm) (TDict tm') ->
               repr anywhere (<[ln := o']> (h ++ [ODict es])) (VRef ln) tn' ->
               dict_get k tm' = Some tn') as Hshared.
    { intros k ln o' tm' tn' Hk Hm' Hn'.
      eapply shared_member_write; [| |done..].
      - exact (repr_member_ne _ _ _ _ _ _ _ Hm0 Hlm Hk).
      - by apply lookup_app_l_Some. }
    split; [done|]. split.
    + intros k ln tn o' tn' Hk Htn Hn' Hne Hm'.
      pose proof (Hshared _ _ _ _ _ Hk Hm' Hn'). congruence.
    + intros es'. rewrite insert_last. by apply repr_app.
Qed.

Lemma copy_independence_witness :
  repr anywhere nested_state.2 nested_state.1 (TDict x_mapping_items) /\
  exists c ext,
    deep_copy 3 nested_state.2 nested_state.1 = Some (c, nested_state.2 ++ ext) /\
    repr anywhere (nested_state.2 ++ ext) c (TDict x_mapping_items) /\
    forall l o', reach (nested_state.2 ++ ext) c l ->
                 length nested_state.2 <= l /\
                 repr anywhere (<[l := o']> (nested_state.2 ++ ext))
                      nested_state.1 (TDict x_mapping_items).
Proof.
  split; [by_reify|].
  apply (proj1 (copy_independence nested_state.2 nested_state.1
                  x_mapping_items ltac:(by_reify)) 3).
  vm_compute. lia.
Defined.

(** C6.  [merge_dicts] returns a new mapping built from the empty one by
    writing each input mapping's items in sequence order
    ([FlatMerge_spec]); each key ends with the value, as it is, of the last
    input holding it; no input yields the empty mapping; and the docstring
    example gives the expected mapping. *)
Theorem merge_dicts_flat :
  (forall (h : heap) dicts eds,
      Forall2 (fun d ed => read_dict h d = Some ed) dicts eds ->
      Forall (fun ed : list (key * val) => NoDup (dict_keys ed)) eds ->
      merge_dicts h dicts =
        Some (VRef (length h), h ++ [ODict (FlatMerge_spec eds)]) /\
      forall k, dict_get k (FlatMerge_spec eds) = last_binding k eds) /\
  (forall h : heap, merge_dicts h [] = Some (VRef (length h), h ++ [ODict []])) /\
  run_merge_dicts 3 ab_first b_c = Some a_b_c.
Proof.
  split; [|split; [done | vm_compute; reflexivity]].
  intros h dicts eds Hall Hnd. split; [by apply merge_dicts_correct|].
  intros k. unfold FlatMerge_spec. rewrite dict_get_fold_update by done.
  by destruct (last_binding k eds).
Qed.

Lemma merge_dicts_flat_witness :
  Forall2 (fun d ed => read_dict flat_state.2 d = Some ed)
          [flat_state.1.1; flat_state.1.2] [ab_entries; b_c_entries] /\
  Forall (fun ed : list (key * val) => NoDup (dict_keys ed))
         [ab_entries; b_c_entries] /\
  merge_dicts flat_state.2 [flat_state.1.1; flat_state.1.2] =
    Some (VRef (length flat_state.2),
          flat_state.2 ++ [ODict (FlatMerge_spec [ab_entries; b_c_entries])]) /\
  forall k, dict_get k (FlatMerge_spec [ab_entries; b_c_entries]) =
            last_binding k [ab_entries; b_c_entries].
Proof.
  assert (Forall2 (fun d ed => read_dict flat_state.2 d = Some ed)
                  [flat_state.1.1; flat_state.1.2] [ab_entries; b_c_entries])
    as Hread by (repeat constructor).
  assert (Forall (fun ed : list (key * val) => NoDup (dict_keys ed))
                 [ab_entries; b_c_entries])
    as Hnd by (repeat constructor; by_decide).
  split; [exact Hread|]. split; [exact Hnd|].
  exact (proj1 merge_dicts_flat flat_state.2 _ _ Hread Hnd).
Defined.

(** C7 (as stated: for every mapping [overrides]).  The overrides are
    received as keyword arguments, so a mapping with a key that is not a
    string cannot be passed: the call raises TypeError and no mapping is
    returned. *)
Lemma OverrideCopy_int_key_raises :
  read_dict int_override_heap (VRef 0) = Some [(KStr "host", VStr "localhost")] /\
  read_dict int_override_heap (VRef 1) = Some [(KInt 1, VStr "x")] /\
  OverrideCopy int_override_heap (VRef 0) (VRef 1) = Some (Raise TypeError) /\
  ~ exists r h' es,
      OverrideCopy int_override_heap (VRef 0) (VRef 1) = Some (Ok (r, h')) /\
      read_dict h' r = Some es /\
      dict_get (KInt 1) es = Some (VStr "x").
Proof.
  split; [reflexivity|]. split; [reflexivity|]. split; [reflexivity|].
  intros (r & h' & es & Heq & _). vm_compute in Heq. discriminate Heq.
Qed.

(** C7 (amended).  For every mapping [base] and every mapping [overrides]
    whose keys are strings other than the parameter name [original],
    the call returns a new mapping in which every key of [overrides] has
    [overrides]' value, the value itself and not a copy, and every other
    key has [base]'s value; the store before the call is a prefix of the
    store after it, so [base] and [overrides] are unchanged. *)
Theorem copy_dict_with_override_keywords (h : heap) base overrides eb eo :
  read_dict h base = Some eb ->
  read_dict h overrides = Some eo ->
  NoDup (dict_keys eo) ->
  Forall keyword_key (dict_keys eo) ->
  exists es,
    OverrideCopy h base overrides =
      Some (Ok (VRef (length h), h ++ [ODict es])) /\
    (forall k x, dict_get k eo = Some x -> dict_get k es = Some x) /\
    (forall k, dict_get k eo = None -> dict_get k es = dict_get k eb).
Proof.
  intros Hb Ho Hnd Hkw. unfold OverrideCopy. rewrite Ho. simpl.
  destruct (unpack_keywords_Ok eo Hkw) as [kw Hkw'].
  rewrite Hkw'. apply unpack_keywords_entries in Hkw'.
  destruct base as [| | | | | |lb]; try done.
  assert (h !! lb = Some (ODict eb)) as Hlb.
  { simpl in Hb. destruct (h !! lb) as [[]|]; congruence. }
  rewrite (copy_dict_with_override_correct _ _ _ _ Hlb), Hkw'. simpl.
  eexists. split; [done|].
  split; intros k; rewrite dict_get_update, dict_get_reverse by done.
  - by intros x ->.
  - by intros ->.
Qed.

Lemma copy_dict_with_override_keywords_witness :
  read_dict port_heap (VRef 0) = Some port_base /\
  read_dict port_heap (VRef 1) = Some port_override /\
  NoDup (dict_keys port_override) /\
  Forall keyword_key (dict_keys port_override) /\
  exists es,
    OverrideCopy port_heap (VRef 0) (VRef 1) =
      Some (Ok (VRef (length port_heap), port_heap ++ [ODict es])) /\
    (forall k x, dict_get k port_override = Some x -> dict_get k es = Some x) /\
    (forall k, dict_get k port_override = None ->
               dict_get k es = dict_get k port_base).
Proof.
  assert (Forall keyword_key (dict_keys port_override)) as Hkw.
  { repeat constructor. exists "port". split; [reflexivity | discriminate]. }
  split; [reflexivity|]. split; [reflexivity|].
  split; [by_decide|]. split; [exact Hkw|].
  apply (copy_dict_with_override_keywords port_heap (VRef 0) (VRef 1)
           port_base port_override);
    [reflexivity | reflexivity | by_decide | exact Hkw].
Defined.

(** C9.  The keys of [deep_merge_dicts base override] are exactly the keys
    of [base] together with those of [override], and the keys of
    [merge_dicts] are exactly the keys of its inputs. *)
Theorem merged_key_sets :
  (forall (h : heap) base override tb to fuel,
      repr anywhere h base (TDict tb) ->
      repr anywhere h override (TDict to) ->
      tree_depth (TDict tb) <= fuel -> tree_depth (TDict to) <= fuel ->
      exists r ext er,
        deep_merge_dicts fuel h base override = Some (r, h ++ ext) /\
        read_dict (h ++ ext) r = Some er /\
        forall k, k ∈ dict_keys er <-> k ∈ dict_keys tb \/ k ∈ dict_keys to) /\
  (forall (h : heap) dicts eds,
      Forall2 (fun d ed => read_dict h d = Some ed) dicts eds ->
      exists r h' er,
        merge_dicts h dicts = Some (r, h') /\
        read_dict h' r = Some er /\
        forall k, k ∈ dict_keys er <-> exists ed, ed ∈ eds /\ k ∈ dict_keys ed).
Proof.
  split.
  - intros h base override tb to fuel Hb Ho Hdb Hdo.
    destruct (deep_merge_correct fuel h base override tb to Hb Ho Hdb Hdo)
      as (r & ext & Heq & Hr).
    apply repr_dict_inv in Hr as (lr & er & -> & _ & Hlr & Her).
    exists (VRef lr), ext, er. split; [done|].
    split; [by apply read_dict_lookup|]. intros k.
    rewrite (entries_keys _ _ _ Her). apply DeepMerge_spec_keys.
  - intros h dicts eds Hall.
    exists (VRef (length h)), (h ++ [ODict (FlatMerge_spec eds)]),
      (FlatMerge_spec eds).
    split; [by apply merge_dicts_correct|].
    split; [apply read_dict_lookup; by apply list_lookup_middle|].
    intros k. unfold FlatMerge_spec. rewrite dict_keys_fold_update. split.
    + intros [Hin|?]; [|done]. by apply elem_of_nil in Hin.
    + by right.
Qed.

Lemma merged_key_sets_witness :
  repr anywhere db_state.2 db_state.1.1 (TDict db_base_items) /\
  repr anywhere db_state.2 db_state.1.2 (TDict db_override_items) /\
  exists r ext er,
    deep_merge_dicts 3 db_state.2 db_state.1.1 db_state.1.2 =
      Some (r, db_state.2 ++ ext) /\
    read_dict (db_state.2 ++ ext) r = Some er /\
    forall k, k ∈ dict_keys er <->
              k ∈ dict_keys db_base_items \/ k ∈ dict_keys db_override_items.
Proof.
  split; [by_reify|]. split; [by_reify|].
  apply (proj1 merged_key_sets); [by_reify | by_reify | |]; vm_compute; lia.
Defined.

(** C10.  For a mapping [base] and a mapping [overrides] that can be
    passed as keyword arguments, the override call and the flat merge of
    the two return the same new mapping: same entries, key by key. *)
Theorem override_is_flat_merge (h : heap) base overrides eb eo :
  read_dict h base = Some eb ->
  read_dict h overrides = Some eo ->
  NoDup (dict_keys eb) ->
  Forall keyword_key (dict_keys eo) ->
  exists es,
    OverrideCopy h base overrides =
      Some (Ok (VRef (length h), h ++ [ODict es])) /\
    merge_dicts h [base; overrides] =
      Some (VRef (length h), h ++ [ODict es]).
Proof.
  intros Hb Ho Hnd Hkw. exists (dict_update eb eo). split.
  - unfold OverrideCopy. rewrite Ho. simpl.
    destruct (unpack_keywords_Ok eo Hkw) as [kw Hkw'].
    rewrite Hkw'. apply unpack_keywords_entries in Hkw'.
    destruct base as [| | | | | |lb]; try done.
    assert (h !! lb = Some (ODict eb)) as Hlb.
    { simpl in Hb. destruct (h !! lb) as [[]|]; congruence. }
    by rewrite (copy_dict_with_override_correct _ _ _ _ Hlb), Hkw'.
  - rewrite (merge_dicts_correct h [base; overrides] [eb; eo])
      by (by repeat constructor).
    unfold FlatMerge_spec. simpl. by rewrite dict_update_nil.
Qed.

Lemma override_is_flat_merge_witness :
  read_dict port_heap (VRef 0) = Some port_base /\
  read_dict port_heap (VRef 1) = Some port_override /\
  NoDup (dict_keys port_base) /\
  Forall keyword_key (dict_keys port_override) /\
  exists es,
    OverrideCopy port_heap (VRef 0) (VRef 1) =
      Some (Ok (VRef (length port_heap), port_heap ++ [ODict es])) /\
    merge_dicts port_heap [VRef 0; VRef 1] =
      Some (VRef (length port_heap), port_heap ++ [ODict es]).
Proof.
  assert (Forall keyword_key (dict_keys port_override)) as Hkw.
  { repeat constructor. exists "port". split; [reflexivity | discriminate]. }
  split; [reflexivity|]. split; [reflexivity|].
  split; [by_decide|]. split; [exact Hkw|].
  apply (override_is_flat_merge port_heap (VRef 0) (VRef 1)
           port_base port_override);
    [reflexivity | reflexivity | by_decide | exact Hkw].
Defined.

(** Freezing one mapping with mutually orderable keys: the items sorted by
    key, as a tuple of pairs. *)
Lemma freeze_dict_repr value_lt (h : heap) d t :
  repr anywhere h d (TDict t) ->
  NoDup (dict_keys t) -> mutually_orderable (dict_keys t) ->
  exists r tr,
    freeze_dict value_lt h d = Some (Ok (VTuple (map item_tuple r))) /\
    repr anywhere h (VTuple (map item_tuple r)) (TTuple (map item_tree tr)) /\
    tr ≡ₚ t /\ StronglySorted item_before tr.
Proof.
  intros Hd Hnd Hord.
  apply repr_dict_inv in Hd as (l & es & -> & _ & Hl & Hes).
  pose proof (entries_keys _ _ _ Hes) as Hkeys.
  destruct (freeze_dict_Ok value_lt h (VRef l) es) as (r & Hr & Hf).
  { by apply read_dict_lookup. }
  { by rewrite Hkeys. }
  { rewrite Hkeys. by apply mutually_orderable_comparable. }
  destruct (sort_onto_rel (repr anywhere h) [] [] es t r) as (tr & Htr & Hrel);
    [constructor | done | done |].
  exists r, tr. split; [done|]. split; [by apply repr_items|]. split.
  - by apply sort_onto_perm in Htr.
  - eapply sort_items_sorted; [constructor | | | exact Htr]; done.
Qed.

(** C3.  For two mappings with mutually orderable keys, the frozen forms
    are equal under [==] exactly when the mappings hold the same key/value
    pairs, whatever the insertion order; the three examples evaluate as
    stated. *)
Theorem freeze_dict_canonical :
  (forall value_lt (h : heap) d1 d2 t1 t2,
      repr anywhere h d1 (TDict t1) -> repr anywhere h d2 (TDict t2) ->
      NoDup (dict_keys t1) -> NoDup (dict_keys t2) ->
      mutually_orderable (dict_keys t1) -> mutually_orderable (dict_keys t2) ->
      exists f1 f2 tf1 tf2,
        freeze_dict value_lt h d1 = Some (Ok f1) /\
        freeze_dict value_lt h d2 = Some (Ok f2) /\
        repr anywhere h f1 tf1 /\ repr anywhere h f2 tf2 /\
        (py_eq tf1 tf2 = true <-> same_items t1 t2)) /\
  (forall value_lt,
      run_freeze_eq value_lt 4 ab_first ba_first = Some true /\
      run_freeze_eq value_lt 4 a_one a_two = Some false /\
      run_freeze_eq value_lt 4 a_one ab_first = Some false).
Proof.
  split; [|intros value_lt; repeat split; vm_compute; reflexivity].
  intros value_lt h d1 d2 t1 t2 Hd1 Hd2 Hnd1 Hnd2 Ho1 Ho2.
  destruct (freeze_dict_repr value_lt h d1 t1 Hd1 Hnd1 Ho1)
    as (r1 & tr1 & Hf1 & Hr1 & Hp1 & Hs1).
  destruct (freeze_dict_repr value_lt h d2 t2 Hd2 Hnd2 Ho2)
    as (r2 & tr2 & Hf2 & Hr2 & Hp2 & Hs2).
  eexists _, _, _, _. repeat (split; [eassumption|]).
  rewrite py_eq_items. by apply sorted_items_canonical.
Qed.

Ltac by_orderable :=
  let a := fresh "a" in let b := fresh "b" in
  let Ha := fresh "Ha" in let Hb := fresh "Hb" in let Hne := fresh "Hne" in
  intros a b Ha Hb Hne;
  apply list_elem_of_In in Ha, Hb; vm_compute in Ha, Hb;
  repeat (destruct Ha as [Ha|Ha]; [subst a|]); try contradiction;
  repeat (destruct Hb as [Hb|Hb]; [subst b|]); try contradiction;
  try (exfalso; apply Hne; reflexivity);
  first [left; reflexivity | right; reflexivity].

Lemma freeze_dict_canonical_witness :
  repr anywhere order_state.2 order_state.1.1 (TDict ab_items) /\
  repr anywhere order_state.2 order_state.1.2 (TDict ba_items) /\
  NoDup (dict_keys ab_items) /\ NoDup (dict_keys ba_items) /\
  mutually_orderable (dict_keys ab_items) /\
  mutually_orderable (dict_keys ba_items) /\
  exists f1 f2 tf1 tf2,
    freeze_dict (fun _ _ _ => Raise TypeError) order_state.2 order_state.1.1
      = Some (Ok f1) /\
    freeze_dict (fun _ _ _ => Raise TypeError) order_state.2 order_state.1.2
      = Some (Ok f2) /\
    repr anywhere order_state.2 f1 tf1 /\ repr anywhere order_state.2 f2 tf2 /\
    (py_eq tf1 tf2 = true <-> same_items ab_items ba_items).
Proof.
  assert (mutually_orderable (dict_keys ab_items)) as Ho1 by by_orderable.
  assert (mutually_orderable (dict_keys ba_items)) as Ho2 by by_orderable.
  split; [by_reify|]. split; [by_reify|].
  split; [by_decide|]. split; [by_decide|].
  split; [exact Ho1|]. split; [exact Ho2|].
  apply (proj1 freeze_dict_canonical);
    [by_reify | by_reify | by_decide | by_decide | exact Ho1 | exact Ho2].
Defined.

(** C8 (as stated: keys that cannot be totally ordered make Freeze fail).
    Two frozensets neither of which contains the other are not ordered by
    [<] either way, yet comparing them raises nothing: the sort succeeds
    and freeze returns the items in insertion order. *)
Lemma freeze_dict_frozenset_keys :
  read_dict fs_heap (VRef 0) = Some fs_keys /\
  NoDup (dict_keys fs_keys) /\
  ~ mutually_orderable (dict_keys fs_keys) /\
  forall value_lt,
    freeze_dict value_lt fs_heap (VRef 0) =
      Some (Ok (VTuple (map item_tuple fs_keys))).
Proof.
  split; [reflexivity|]. split; [by_decide|]. split.
  - intros Hord.
    destruct (Hord (KFrozenset {[1%Z]}) (KFrozenset {[2%Z]})) as [Hlt|Hlt].
    + apply list_elem_of_In. left. reflexivity.
    + apply list_elem_of_In. right. left. reflexivity.
    + by_decide.
    + vm_compute in Hlt. discriminate Hlt.
    + vm_compute in Hlt. discriminate Hlt.
  - intros value_lt. vm_compute. reflexivity.
Qed.

(** C8 (amended).  When two distinct keys of the mapping have no
    supported [<] between them (an integer against a string, None against
    any other key, a frozenset against a key that is not one), freeze
    raises TypeError, which reaches the caller with no fallback ordering;
    when the keys are mutually orderable the sort succeeds and freeze
    returns a frozen form. *)
Theorem freeze_dict_ordering value_lt (h : heap) d es :
  read_dict h d = Some es -> NoDup (dict_keys es) ->
  ((exists a b, a ∈ dict_keys es /\ b ∈ dict_keys es /\ a <> b /\
                key_lt a b = Raise TypeError) ->
   freeze_dict value_lt h d = Some (Raise TypeError)) /\
  (mutually_orderable (dict_keys es) ->
   exists f, freeze_dict value_lt h d = Some (Ok f)).
Proof.
  intros Hd Hnd. split.
  - intros (a & b & Ha & Hb & Hne & Hlt).
    eapply freeze_dict_Raise; [done..|].
    exact (unsupported_not_comparable _ _ _ Ha Hb Hne Hlt).
  - intros Hord.
    destruct (freeze_dict_Ok value_lt h d es) as (r & _ & Hf); [done..| |].
    + by apply mutually_orderable_comparable.
    + eauto.
Qed.

Lemma freeze_dict_ordering_witness :
  read_dict mixed_heap (VRef 0) = Some mixed_keys /\
  NoDup (dict_keys mixed_keys) /\
  freeze_dict (fun _ _ _ => Raise TypeError) mixed_heap (VRef 0) =
    Some (Raise TypeError).
Proof.
  split; [reflexivity|]. split; [by_decide|].
  apply (proj1 (freeze_dict_ordering (fun _ _ _ => Raise TypeError)
                  mixed_heap (VRef 0) mixed_keys eq_refl ltac:(by_decide))).
  exists (KInt 2), (KStr "x").
  split; [apply list_elem_of_In; left; reflexivity|].
  split; [apply list_elem_of_In; right; left; reflexivity|].
  split; [discriminate | reflexivity].
Defined.

(** * Further properties of the copy utilities *)






(** X3.  With no overrides [copy_dict_with_override] is the shallow copy
    of the dictionary: same new object, same store. *)
Theorem override_nothing_is_shallow_copy (h : heap) original es :
  read_dict h original = Some es ->
  copy_dict_with_override h original [] = shallow_copy h original.
Proof.
  intros Hread. destruct original as [| | | | | |l]; try done.
  assert (h !! l = Some (ODict es)) as Hl.
  { simpl in Hread. destruct (h !! l) as [[]|]; congruence. }
  rewrite (copy_dict_with_override_correct _ _ _ _ Hl). simpl. by rewrite Hl.
Qed.

Lemma override_nothing_is_shallow_copy_witness :
  read_dict port_heap (VRef 0) = Some port_base /\
  copy_dict_with_override port_heap (VRef 0) [] = shallow_copy port_heap (VRef 0).
Proof.
  split; [reflexivity|].
  apply (override_nothing_is_shallow_copy port_heap (VRef 0) port_base).
  reflexivity.
Defined.

Lemma filter_notin_snoc (ks other : list key) (k : key) :
  k ∉ other ->
  filter (fun x => x ∉ ks ++ [k]) other = filter (fun x => x ∉ ks) other.
Proof.
  intros Hk. induction other as [|x other IH]; [done|].
  apply not_elem_of_cons in Hk as [Hne Hk].
  rewrite !filter_cons, IH by done.
  destruct (decide (x ∉ ks ++ [k])) as [Hx|Hx], (decide (x ∉ ks)) as [Hx'|Hx'];
    try done.
  - exfalso. apply Hx'. intros Hin. apply Hx. apply elem_of_app. by left.
  - exfalso. apply Hx. rewrite elem_of_app, list_elem_of_singleton.
    intros [?|?]; [done | congruence].
Qed.

(** Keys after an update: the old keys in their order, then the new ones in
    the order the update brings them. *)
Lemma dict_keys_update_order {V} (es other : list (key * V)) :
  NoDup (dict_keys other) ->
  dict_keys (dict_update es other) =
  dict_keys es ++ filter (fun k => k ∉ dict_keys es) (dict_keys other).
Proof.
  unfold dict_update. revert es.
  induction other as [|[k v] other IH]; intros es Hnd; simpl.
  { unfold dict_keys at 3. simpl. by rewrite app_nil_r. }
  unfold dict_keys in Hnd. csimpl in Hnd. apply NoDup_cons in Hnd as [Hk Hnd].
  rewrite IH by done.
  change (dict_keys ((k, v) :: other)) with (k :: dict_keys other).
  rewrite filter_cons.
  destruct (decide (k ∈ dict_keys es)) as [Hin|Hnin].
  - rewrite (dict_keys_set_in k v es Hin).
    rewrite decide_False by (intros Hn; by apply Hn). done.
  - rewrite decide_True by done. rewrite (dict_set_notin k v es Hnin).
    assert (dict_keys (es ++ [(k, v)]) = dict_keys es ++ [k]) as ->
      by (unfold dict_keys; by rewrite fmap_app).
    rewrite filter_notin_snoc by done. by rewrite <- app_assoc.
Qed.

(** X4.  The mapping [copy_dict_with_override] returns lists the keys of
    the original in their order, an overridden key staying where it was,
    followed by the new keys in keyword order. *)
Theorem copy_dict_with_override_key_order (h : heap) l es kw :
  h !! l = Some (ODict es) ->
  NoDup (dict_keys (keyword_entries kw)) ->
  exists es',
    copy_dict_with_override h (VRef l) kw =
      Some (VRef (length h), h ++ [ODict es']) /\
    dict_keys es' =
      dict_keys es ++
      filter (fun k => k ∉ dict_keys es) (dict_keys (keyword_entries kw)).
Proof.
  intros Hl Hnd. eexists. split.
  - by apply copy_dict_with_override_correct.
  - by apply dict_keys_update_order.
Qed.

Lemma copy_dict_with_override_key_order_witness :
  port_heap !! 0 = Some (ODict port_base) /\
  NoDup (dict_keys (keyword_entries [("debug", VBool true); ("port", VInt 3000)])) /\
  exists es',
    copy_dict_with_override port_heap (VRef 0)
      [("debug", VBool true); ("port", VInt 3000)] =
      Some (VRef (length port_heap), port_heap ++ [ODict es']) /\
    dict_keys es' =
      dict_keys port_base ++
      filter (fun k => k ∉ dict_keys port_base)
        (dict_keys (keyword_entries [("debug", VBool true); ("port", VInt 3000)])).
Proof.
  split; [reflexivity|]. split; [by_decide|].
  apply copy_dict_with_override_key_order; [reflexivity | by_decide].
Defined.

(** X5.  Merging in two stages gives the mapping of the single merge:
    [merge_dicts(merge_dicts(ds1...), ds2...)] has the entries of
    [merge_dicts(ds1..., ds2...)]. *)
Theorem merge_dicts_staged (h : heap) ds1 ds2 eds1 eds2 :
  Forall2 (fun d ed => read_dict h d = Some ed) ds1 eds1 ->
  Forall2 (fun d ed => read_dict h d = Some ed) ds2 eds2 ->
  exists r1 h1 es,
    merge_dicts h ds1 = Some (r1, h1) /\
    merge_dicts h1 (r1 :: ds2) = Some (VRef (length h1), h1 ++ [ODict es]) /\
    merge_dicts h (ds1 ++ ds2) = Some (VRef (length h), h ++ [ODict es]).
Proof.
  intros H1 H2.
  exists (VRef (length h)), (h ++ [ODict (FlatMerge_spec eds1)]),
    (FlatMerge_spec (eds1 ++ eds2)).
  split; [by apply merge_dicts_correct|]. split.
  - rewrite (merge_dicts_correct _ (VRef (length h) :: ds2)
               (FlatMerge_spec eds1 :: eds2)).
    + do 3 f_equal. unfold FlatMerge_spec. simpl.
      rewrite fold_left_app, dict_update_nil; [done|].
      apply (fold_update_NoDup eds1 []). unfold dict_keys. simpl. constructor.
    + constructor.
      * apply read_dict_lookup. by apply list_lookup_middle.
      * eapply Forall2_impl; [done|]. intros d ed. apply read_dict_app.
  - apply merge_dicts_correct. by apply Forall2_app.
Qed.

Lemma merge_dicts_staged_witness :
  Forall2 (fun d ed => read_dict flat_state.2 d = Some ed)
          [flat_state.1.1] [ab_entries] /\
  Forall2 (fun d ed => read_dict flat_state.2 d = Some ed)
          [flat_state.1.2] [b_c_entries] /\
  exists r1 h1 es,
    merge_dicts flat_state.2 [flat_state.1.1] = Some (r1, h1) /\
    merge_dicts h1 (r1 :: [flat_state.1.2]) =
      Some (VRef (length h1), h1 ++ [ODict es]) /\
    merge_dicts flat_state.2 ([flat_state.1.1] ++ [flat_state.1.2]) =
      Some (VRef (length flat_state.2), flat_state.2 ++ [ODict es]).
Proof.
  assert (Forall2 (fun d ed => read_dict flat_state.2 d = Some ed)
                  [flat_state.1.1] [ab_entries]) as H1 by (repeat constructor).
  assert (Forall2 (fun d ed => read_dict flat_state.2 d = Some ed)
                  [flat_state.1.2] [b_c_entries]) as H2 by (repeat constructor).
  split; [exact H1|]. split; [exact H2|].
  exact (merge_dicts_staged _ _ _ _ _ H1 H2).
Defined.

(** X6.  [merge_dicts] of a single dictionary is its shallow copy. *)
Theorem merge_dicts_single_is_shallow_copy (h : heap) d es :
  read_dict h d = Some es -> NoDup (dict_keys es) ->
  merge_dicts h [d] = shallow_copy h d.
Proof.
  intros Hread Hnd.
  rewrite (merge_dicts_correct h [d] [es]) by (by repeat constructor).
  unfold FlatMerge_spec. simpl. rewrite dict_update_nil by done.
  destruct d as [| | | | | |l]; try done. simpl in *.
  destruct (h !! l) as [[]|]; try done. by injection Hread as ->.
Qed.

Lemma merge_dicts_single_is_shallow_copy_witness :
  read_dict port_heap (VRef 0) = Some port_base /\
  NoDup (dict_keys port_base) /\
  merge_dicts port_heap [VRef 0] = shallow_copy port_heap (VRef 0).
Proof.
  split; [reflexivity|]. split; [by_decide|].
  apply (merge_dicts_single_is_shallow_copy port_heap (VRef 0) port_base);
    [reflexivity | by_decide].
Defined.

(** X7.  Merging an empty override into [base] is the deep copy of
    [base]: same result, same store. *)
Theorem deep_merge_empty_override (h : heap) base override tb fuel :
  repr anywhere h base (TDict tb) ->
  read_dict h override = Some [] ->
  tree_depth (TDict tb) <= fuel ->
  deep_merge_dicts fuel h base override = deep_copy fuel h base.
Proof.
  intros Hb Ho Hd. destruct fuel as [|f]; [simpl in Hd; lia|].
  cbn [deep_merge_dicts].
  destruct (deep_copy_correct (S f) _ h base _ Hb Hd) as (r & ext & Heq & Hr).
  rewrite Heq. cbn [mbind option_bind].
  apply repr_dict_inv in Hr as (lr & er & -> & _ & Hlr & _).
  rewrite (read_dict_lookup _ _ _ Hlr), (read_dict_app _ ext _ _ Ho).
  reflexivity.
Qed.

Lemma deep_merge_empty_override_witness :
  repr anywhere empty_then_db.2 empty_then_db.1.1 (TDict db_base_items) /\
  read_dict empty_then_db.2 (VRef 0) = Some [] /\
  deep_merge_dicts 3 empty_then_db.2 empty_then_db.1.1 (VRef 0) =
    deep_copy 3 empty_then_db.2 empty_then_db.1.1.
Proof.
  split; [by_reify|]. split; [reflexivity|].
  apply (deep_merge_empty_override _ _ _ db_base_items);
    [by_reify | reflexivity | vm_compute; lia].
Defined.

Lemma merge_fold_append acc to :
  NoDup (dict_keys to) ->
  (forall k, k ∈ dict_keys to -> k ∉ dict_keys acc) ->
  fold_left merge_step to acc = acc ++ to.
Proof.
  revert acc. induction to as [|[k v] to IH]; intros acc Hnd Hdisj; simpl.
  { by rewrite app_nil_r. }
  unfold dict_keys in Hnd. csimpl in Hnd. apply NoDup_cons in Hnd as [Hk Hnd].
  assert (k ∉ dict_keys acc) as Hka by (apply Hdisj; unfold dict_keys; csimpl; left).
  unfold merge_step at 2. simpl.
  assert (dict_get k acc = None) as -> by (by apply dict_get_None).
  rewrite merge_value_replace by (intros [_ [? ?]]; done).
  rewrite dict_set_notin by done.
  rewrite IH; [by rewrite <- app_assoc | done |].
  intros k' Hk'. unfold dict_keys. rewrite fmap_app. csimpl.
  rewrite elem_of_app, list_elem_of_singleton. intros [Hin| ->].
  - apply (Hdisj k'); [unfold dict_keys; csimpl; by right | done].
  - done.
Qed.

(** X8.  Merging [override] into an empty base gives a new mapping that
    denotes [override], items in the same order, built entirely of new
    containers. *)
Theorem deep_merge_empty_base (h : heap) base override to fuel :
  read_dict h base = Some [] ->
  repr anywhere h override (TDict to) ->
  NoDup (dict_keys to) ->
  tree_depth (TDict to) <= fuel ->
  exists r ext,
    deep_merge_dicts fuel h base override = Some (r, h ++ ext) /\
    repr anywhere (h ++ ext) r (TDict to) /\
    forall l, reach (h ++ ext) r l -> length h <= l.
Proof.
  intros Hb Ho Hnd Hd.
  assert (repr anywhere h base (TDict [])) as Hb'.
  { destruct base as [| | | | | |l]; try done. simpl in Hb.
    destruct (h !! l) as [[| |]|] eqn:Hl; try done. injection Hb as ->.
    eapply repr_dict; [done | done | constructor]. }
  destruct (deep_merge_correct fuel h base override [] to Hb' Ho) as (r & ext & Heq & Hr);
    [simpl; pose proof (tree_depth_pos (TDict to)); lia | done |].
  rewrite DeepMerge_spec_fold, merge_fold_append in Hr; [|done|].
  2:{ intros k _. unfold dict_keys. simpl. apply not_elem_of_nil. }
  exists r, ext. split; [done|]. split; [by eapply repr_anywhere|].
  intros l Hl. by destruct (repr_reach _ _ _ _ _ Hr Hl).
Qed.

Lemma deep_merge_empty_base_witness :
  read_dict empty_then_db.2 (VRef 0) = Some [] /\
  repr anywhere empty_then_db.2 empty_then_db.1.2 (TDict db_override_items) /\
  NoDup (dict_keys db_override_items) /\
  exists r ext,
    deep_merge_dicts 3 empty_then_db.2 (VRef 0) empty_then_db.1.2 =
      Some (r, empty_then_db.2 ++ ext) /\
    repr anywhere (empty_then_db.2 ++ ext) r (TDict db_override_items) /\
    forall l, reach (empty_then_db.2 ++ ext) r l -> length empty_then_db.2 <= l.
Proof.
  split; [reflexivity|]. split; [by_reify|]. split; [by_decide|].
  apply deep_merge_empty_base; [reflexivity | by_reify | by_decide | vm_compute; lia].
Defined.

(** X9.  Key by key, the deep merge keeps the value of a key that only
    [base] has, takes [override]'s value for a key that only [override]
    has, and for a key at which both hold mappings holds their recursive
    merge. *)
Theorem deep_merge_dicts_lookup (h : heap) base override tb to fuel :
  repr anywhere h base (TDict tb) ->
  repr anywhere h override (TDict to) ->
  tree_depth (TDict tb) <= fuel -> tree_depth (TDict to) <= fuel ->
  NoDup (dict_keys to) ->
  exists r ext tr,
    deep_merge_dicts fuel h base override = Some (r, h ++ ext) /\
    repr anywhere (h ++ ext) r (TDict tr) /\
    (forall k, dict_get k to = None -> dict_get k tr = dict_get k tb) /\
    (forall k vo, dict_get k to = Some vo -> dict_get k tb = None ->
                  dict_get k tr = Some vo) /\
    (forall k eo eb, dict_get k to = Some (TDict eo) ->
                     dict_get k tb = Some (TDict eb) ->
                     dict_get k tr = Some (TDict (DeepMerge_spec eb eo))).
Proof.
  intros Hb Ho Hdb Hdo Hnd.
  destruct (deep_merge_correct fuel h base override tb to Hb Ho Hdb Hdo)
    as (r & ext & Heq & Hr).
  exists r, ext, (DeepMerge_spec tb to). split; [done|].
  split; [by eapply repr_anywhere|].
  split; [|split]; intros k.
  - intros Hk. by rewrite DeepMerge_spec_get, Hk.
  - intros vo Hk Hkb. rewrite DeepMerge_spec_get, Hk, Hkb by done.
    by rewrite merge_value_replace by (intros [_ [? ?]]; done).
  - intros eo eb Hk Hkb. by rewrite DeepMerge_spec_get, Hk, Hkb.
Qed.

Lemma deep_merge_dicts_lookup_witness :
  repr anywhere db_state.2 db_state.1.1 (TDict db_base_items) /\
  repr anywhere db_state.2 db_state.1.2 (TDict db_override_items) /\
  NoDup (dict_keys db_override_items) /\
  exists r ext tr,
    deep_merge_dicts 3 db_state.2 db_state.1.1 db_state.1.2 =
      Some (r, db_state.2 ++ ext) /\
    repr anywhere (db_state.2 ++ ext) r (TDict tr) /\
    (forall k, dict_get k db_override_items = None ->
               dict_get k tr = dict_get k db_base_items) /\
    (forall k vo, dict_get k db_override_items = Some vo ->
                  dict_get k db_base_items = None -> dict_get k tr = Some vo) /\
    (forall k eo eb, dict_get k db_override_items = Some (TDict eo) ->
                     dict_get k db_base_items = Some (TDict eb) ->
                     dict_get k tr = Some (TDict (DeepMerge_spec eb eo))).
Proof.
  split; [by_reify|]. split; [by_reify|]. split; [by_decide|].
  apply deep_merge_dicts_lookup;
    [by_reify | by_reify | vm_compute; lia | vm_compute; lia | by_decide].
Defined.

Lemma dict_set_same {V} k (v : V) es :
  dict_get k es = Some v -> dict_set k v es = es.
Proof.
  induction es as [|[k' v'] es IH]; simpl; [done|].
  destruct (decide (k' = k)) as [->|Hne].
  - by intros [= ->].
  - intros Hg. by rewrite IH.
Qed.

Lemma dict_wf_dict es :
  dict_wf (TDict es) <->
  NoDup (dict_keys es) /\ Forall (fun e : key * tree => dict_wf e.2) es.
Proof.
  simpl. apply and_iff_compat_l. induction es as [|e es IH]; simpl.
  - split; [constructor | done].
  - rewrite IH. split.
    + intros [? ?]. by constructor.
    + intros Hall. by apply Forall_cons in Hall.
Qed.

Lemma merge_fold_self es acc :
  (forall e, e ∈ es -> dict_get e.1 acc = Some e.2 /\
                       merge_value e.2 (Some e.2) = e.2) ->
  fold_left merge_step es acc = acc.
Proof.
  induction es as [|[k v] es IH]; intros Hes; simpl; [done|].
  destruct (Hes (k, v)) as [Hg Hm]; [left|]. simpl in *.
  unfold merge_step at 2. simpl. rewrite Hg, Hm, dict_set_same by done.
  apply IH. intros e He. apply Hes. by right.
Qed.

Lemma merge_value_self n t :
  tree_depth t <= n -> dict_wf t -> merge_value t (Some t) = t.
Proof.
  revert t. induction n as [|n IH]; intros t Hd Hwf.
  { pose proof (tree_depth_pos t). lia. }
  destruct t as [| | | | | | |es|]; try done.
  rewrite merge_value_dict, DeepMerge_spec_fold. f_equal.
  apply dict_wf_dict in Hwf as [Hnd Hall]. apply tree_depth_dict in Hd.
  apply merge_fold_self. intros [k v] He. simpl. split.
  - by apply dict_get_NoDup.
  - rewrite Forall_forall in Hall, Hd. apply IH.
    + by apply (Hd (k, v)).
    + by apply (Hall (k, v)).
Qed.

(** X10.  Merging a mapping into itself gives a new mapping that denotes
    the same value. *)
Theorem deep_merge_self (h : heap) d t fuel :
  repr anywhere h d (TDict t) -> dict_wf (TDict t) ->
  tree_depth (TDict t) <= fuel ->
  exists r ext,
    deep_merge_dicts fuel h d d = Some (r, h ++ ext) /\
    repr anywhere (h ++ ext) r (TDict t) /\
    forall l, reach (h ++ ext) r l -> length h <= l.
Proof.
  intros Hd Hwf Hdepth.
  destruct (deep_merge_correct fuel h d d t t Hd Hd Hdepth Hdepth)
    as (r & ext & Heq & Hr).
  rewrite <- merge_value_dict, (merge_value_self _ _ Hdepth Hwf) in Hr.
  exists r, ext. split; [done|]. split; [by eapply repr_anywhere|].
  intros l Hl. by destruct (repr_reach _ _ _ _ _ Hr Hl).
Qed.

Lemma deep_merge_self_witness :
  repr anywhere db_state.2 db_state.1.1 (TDict db_base_items) /\
  dict_wf (TDict db_base_items) /\
  exists r ext,
    deep_merge_dicts 3 db_state.2 db_state.1.1 db_state.1.1 =
      Some (r, db_state.2 ++ ext) /\
    repr anywhere (db_state.2 ++ ext) r (TDict db_base_items) /\
    forall l, reach (db_state.2 ++ ext) r l -> length db_state.2 <= l.
Proof.
  assert (dict_wf (TDict db_base_items)) as Hwf.
  { simpl. repeat split; by_decide. }
  split; [by_reify|]. split; [exact Hwf|].
  apply deep_merge_self; [by_reify | exact Hwf | vm_compute; lia].
Defined.

(** X11.  For a mapping with mutually orderable keys, the frozen form holds
    exactly the items of the mapping, each once and with the very value
    the mapping holds, in strictly ascending key order. *)
Theorem freeze_dict_sorted_items value_lt (h : heap) d es :
  read_dict h d = Some es -> NoDup (dict_keys es) ->
  mutually_orderable (dict_keys es) ->
  exists r,
    freeze_dict value_lt h d = Some (Ok (VTuple (map item_tuple r))) /\
    r ≡ₚ es /\ StronglySorted item_before r.
Proof.
  intros Hd Hnd Hord.
  destruct (freeze_dict_Ok value_lt h d es Hd Hnd) as (r & Hr & Hf).
  { by apply mutually_orderable_comparable. }
  exists r. split; [done|]. split.
  - by apply sort_onto_perm in Hr.
  - eapply sort_items_sorted; [constructor | | | exact Hr]; done.
Qed.

Lemma freeze_dict_sorted_items_witness :
  read_dict order_state.2 order_state.1.2 =
    Some [(KStr "b", VInt 2); (KStr "a", VInt 1)] /\
  NoDup (dict_keys [(KStr "b", VInt 2); (KStr "a", VInt 1)]) /\
  mutually_orderable (dict_keys [(KStr "b", VInt 2); (KStr "a", VInt 1)]) /\
  exists r,
    freeze_dict (fun _ _ _ => Raise TypeError) order_state.2 order_state.1.2 =
      Some (Ok (VTuple (map item_tuple r))) /\
    r ≡ₚ [(KStr "b", VInt 2); (KStr "a", VInt 1)] /\
    StronglySorted item_before r.
Proof.
  assert (mutually_orderable (dict_keys [(KStr "b", VInt 2); (KStr "a", VInt 1)]))
    as Hord by by_orderable.
  split; [reflexivity|]. split; [by_decide|]. split; [exact Hord|].
  apply freeze_dict_sorted_items; [reflexivity | by_decide | exact Hord].
Defined.

(** X12.  A mapping with at most one key freezes whatever that key is,
    None included: nothing is compared. *)
Theorem freeze_dict_single value_lt (h : heap) d es :
  read_dict h d = Some es -> length es <= 1 ->
  freeze_dict value_lt h d = Some (Ok (VTuple (map item_tuple es))).
Proof.
  intros Hd Hlen. unfold freeze_dict. rewrite Hd.
  destruct es as [|e [|e' es]]; [done | done | simpl in Hlen; lia].
Qed.

Lemma freeze_dict_single_witness :
  read_dict none_key_heap (VRef 0) = Some [(KNone, VInt 1)] /\
  length [(KNone, VInt 1)] <= 1 /\
  freeze_dict (fun _ _ _ => Raise TypeError) none_key_heap (VRef 0) =
    Some (Ok (VTuple (map item_tuple [(KNone, VInt 1)]))).
Proof.
  split; [reflexivity|]. split; [simpl; lia|].
  apply freeze_dict_single; [reflexivity | simpl; lia].
Defined.

Lemma not_comparable_pair ks :
  NoDup ks -> ~ comparable_keys ks ->
  exists a b, a ∈ ks /\ b ∈ ks /\ a <> b /\ key_lt a b = Raise TypeError.
Proof.
  intros Hnd Hn. destruct ks as [|a [|b ks]].
  - exfalso. apply Hn. left. simpl. lia.
  - exfalso. apply Hn. left. simpl. lia.
  - assert (a <> b) as Hab.
    { apply NoDup_cons in Hnd as [Ha _]. intros ->. apply Ha. left. }
    destruct (decide (key_class a = 0)) as [Hz|Hz].
    { exists a, b. split; [left|]. split; [right; left|]. split; [done|].
      apply key_lt_Raise. by right. }
    destruct (decide (Forall (fun k => key_class k = key_class a) (a :: b :: ks)))
      as [Hall|Hall].
    { exfalso. apply Hn. right. by exists (key_class a). }
    apply not_Forall_Exists in Hall; [|apply _].
    apply Exists_exists in Hall as (k & Hk & Hcls).
    exists a, k. split; [left|]. split; [done|]. split.
    + intros ->. by apply Hcls.
    + apply key_lt_Raise. left. congruence.
Qed.

(** X13.  Freeze raises TypeError exactly when two distinct keys of the
    mapping have no supported [<] between them; in every other case it
    returns a frozen form. *)
Theorem freeze_dict_raises_iff value_lt (h : heap) d es :
  read_dict h d = Some es -> NoDup (dict_keys es) ->
  (freeze_dict value_lt h d = Some (Raise TypeError) <->
   exists a b, a ∈ dict_keys es /\ b ∈ dict_keys es /\ a <> b /\
               key_lt a b = Raise TypeError) /\
  (freeze_dict value_lt h d <> Some (Raise TypeError) ->
   exists f, freeze_dict value_lt h d = Some (Ok f)).
Proof.
  intros Hd Hnd.
  destruct (decide (comparable_keys (dict_keys es))) as [Hc|Hc].
  - destruct (freeze_dict_Ok value_lt h d es Hd Hnd Hc) as (r & _ & Hf).
    split; [split|].
    + rewrite Hf. done.
    + intros (a & b & Ha & Hb & Hne & Hlt). exfalso.
      by apply (unsupported_not_comparable _ _ _ Ha Hb Hne Hlt).
    + eauto.
  - pose proof (freeze_dict_Raise value_lt h d es Hd Hnd Hc) as Hf.
    split; [split|]; [|done|done].
    intros _. by apply not_comparable_pair.
Qed.

Lemma freeze_dict_raises_iff_witness :
  read_dict mixed_heap (VRef 0) = Some mixed_keys /\
  NoDup (dict_keys mixed_keys) /\
  (freeze_dict (fun _ _ _ => Raise TypeError) mixed_heap (VRef 0) =
     Some (Raise TypeError) <->
   exists a b, a ∈ dict_keys mixed_keys /\ b ∈ dict_keys mixed_keys /\ a <> b /\
               key_lt a b = Raise TypeError).
Proof.
  split; [reflexivity|]. split; [by_decide|].
  apply (freeze_dict_raises_iff (fun _ _ _ => Raise TypeError)
           mixed_heap (VRef 0) mixed_keys); [reflexivity | by_decide].
Defined.

(** * Properties of the type utilities *)



(** X15.  With a single key [safe_nested_get] returns what [safe_get]
    returns, except for a key stored with the value None: [safe_get]
    returns that None, [safe_nested_get] the default. *)
Theorem safe_nested_get_one_key (h : heap) data es k default :
  read_dict h data = Some es ->
  (dict_get k es <> Some VNone ->
   safe_get h data k default = Some (safe_nested_get h data [k] default)) /\
  (dict_get k es = Some VNone ->
   safe_get h data k default = Some VNone /\
   safe_nested_get h data [k] default = default).
Proof.
  intros Hd. unfold safe_get. simpl. unfold is_dict, safe_get. rewrite Hd. simpl.
  split.
  - intros Hne. destruct (dict_get k es) as [v|]; [|done].
    destruct v; try done.
  - intros ->. done.
Qed.

Lemma safe_nested_get_one_key_witness :
  read_dict none_key_heap (VRef 0) = Some [(KNone, VInt 1)] /\
  (dict_get (KStr "a") [(KNone, VInt 1)] <> Some VNone ->
   safe_get none_key_heap (VRef 0) (KStr "a") (VInt 7) =
     Some (safe_nested_get none_key_heap (VRef 0) [KStr "a"] (VInt 7))) /\
  (dict_get (KStr "a") [(KNone, VInt 1)] = Some VNone ->
   safe_get none_key_heap (VRef 0) (KStr "a") (VInt 7) = Some VNone /\
   safe_nested_get none_key_heap (VRef 0) [KStr "a"] (VInt 7) = VInt 7).
Proof.
  split; [reflexivity|].
  apply (safe_nested_get_one_key none_key_heap (VRef 0) [(KNone, VInt 1)]).
  reflexivity.
Defined.

(** X16.  A path can be followed in two stages: looking up [keys1] with
    default None and then [keys2] from the result gives what the single
    lookup of [keys1] followed by [keys2] gives. *)
Theorem safe_nested_get_app (h : heap) data keys1 keys2 default :
  keys2 <> [] ->
  safe_nested_get h data (keys1 ++ keys2) default =
  safe_nested_get h (safe_nested_get h data keys1 VNone) keys2 default.
Proof.
  intros Hne.
  assert (safe_nested_get h VNone keys2 default = default) as Hnone
    by (destruct keys2; done).
  revert data. induction keys1 as [|k keys1 IH]; intros data; simpl; [done|].
  destruct (is_dict h data); [|done].
  destruct (safe_get h data k VNone) as [c|]; [|done].
  destruct (is_none c); [done|]. apply IH.
Qed.

Lemma safe_nested_get_app_witness :
  [KStr "value"] <> [] /\
  safe_nested_get levels_state.2 levels_state.1
    ([KStr "level1"; KStr "level2"] ++ [KStr "value"]) (VStr "N/A") =
  safe_nested_get levels_state.2
    (safe_nested_get levels_state.2 levels_state.1
       [KStr "level1"; KStr "level2"] VNone)
    [KStr "value"] (VStr "N/A").
Proof.
  split; [discriminate|]. apply safe_nested_get_app. discriminate.
Defined.

Lemma repr_none_inv P (h : heap) v : repr P h v TNone -> v = VNone.
Proof. by inversion 1. Qed.

Lemma repr_is_none P (h : heap) v t :
  repr P h v t -> is_none v = true <-> t = TNone.
Proof. destruct 1; simpl; split; congruence. Qed.

(** X17.  When [data] denotes a structured value, [safe_nested_get] returns
    the value found along the path of keys, provided every step but the
    last is a mapping holding the next key and the value found is not None;
    in every other case with at least one key it returns the default. *)
Theorem safe_nested_get_path (h : heap) keys : forall data t default,
  repr anywhere h data t ->
  (forall t', tree_path t keys = Some t' -> t' <> TNone ->
              repr anywhere h (safe_nested_get h data keys default) t') /\
  (keys <> [] -> tree_path t keys = None \/ tree_path t keys = Some TNone ->
   safe_nested_get h data keys default = default).
Proof.
  induction keys as [|k keys IH]; intros data t default Hr.
  { simpl. split; [by intros t' [= <-] | done]. }
  simpl. unfold safe_get.
  destruct (is_dict h data) eqn:Hdict.
  2:{ split.
      - intros t' Hp. destruct t; try done. exfalso.
        assert (is_dict h data = true); [|congruence].
        apply (repr_is_dict _ _ _ _ Hr). eauto.
      - done. }
  apply (repr_is_dict _ _ _ _ Hr) in Hdict as [tes ->].
  apply repr_dict_inv in Hr as (l & es & -> & _ & Hl & Hes).
  rewrite (read_dict_lookup _ _ _ Hl). simpl.
  pose proof (entries_dict_get _ k _ _ Hes) as Hget.
  destruct Hget as [v t1 Hv|]; simpl; [|split; [done | done]].
  destruct (is_none v) eqn:Hnone.
  - apply (repr_is_none _ _ _ _ Hv) in Hnone as ->. split; [|done].
    intros t' Hp Hne. destruct keys; simpl in Hp; congruence.
  - assert (t1 <> TNone) as Ht1.
    { intros ->. apply repr_none_inv in Hv as ->. done. }
    destruct (IH v t1 default Hv) as [IH1 IH2]. split; [done|].
    intros _ Hp. destruct keys as [|k' keys'].
    + simpl in Hp. destruct Hp as [?|[= ?]]; done.
    + by apply IH2.
Qed.

Lemma safe_nested_get_path_witness :
  repr anywhere levels_state.2 levels_state.1 levels /\
  (forall t', tree_path levels [KStr "level1"; KStr "level2"; KStr "value"] = Some t' ->
              t' <> TNone ->
              repr anywhere levels_state.2
                (safe_nested_get levels_state.2 levels_state.1
                   [KStr "level1"; KStr "level2"; KStr "value"] (VStr "N/A")) t') /\
  ([KStr "level1"; KStr "level2"; KStr "value"] <> [] ->
   tree_path levels [KStr "level1"; KStr "level2"; KStr "value"] = None \/
   tree_path levels [KStr "level1"; KStr "level2"; KStr "value"] = Some TNone ->
   safe_nested_get levels_state.2 levels_state.1
     [KStr "level1"; KStr "level2"; KStr "value"] (VStr "N/A") = VStr "N/A").
Proof.
  split; [by_reify|]. apply safe_nested_get_path. by_reify.
Defined.

(** * Properties of the string utilities *)

Lemma str_mul_star n : str_mul star n = replicate (Z.to_nat n) "*"%char.
Proof.
  unfold str_mul, star. simpl.
  induction (Z.to_nat n) as [|k IH]; simpl; [done|]. by rewrite IH.
Qed.

Lemma slice_index_nonneg len i :
  (0 <= i)%Z -> slice_index len i = Nat.min len (Z.to_nat i).
Proof.
  intros Hi. unfold slice_index.
  destruct (i <? 0)%Z eqn:Hlt; [|done]. apply Z.ltb_lt in Hlt. lia.
Qed.

Lemma slice_index_neg len i :
  (i < 0)%Z -> slice_index len i = len - Z.to_nat (- i).
Proof.
  intros Hi. unfold slice_index.
  destruct (i <? 0)%Z eqn:Hlt; [|apply Z.ltb_ge in Hlt; lia]. lia.
Qed.

(** X18.  When the suffix is no longer than [max_length], [truncate]
    returns the text unchanged if it fits, and otherwise a prefix of the
    text followed by the suffix, of length exactly [max_length]. *)
Theorem truncate_fits (text suffix : pystr) (max_length : Z) :
  (py_len suffix <= max_length)%Z ->
  ((py_len text <= max_length)%Z -> truncate text max_length suffix = text) /\
  ((max_length < py_len text)%Z ->
   truncate text max_length suffix =
     take (Z.to_nat (max_length - py_len suffix)) text ++ suffix /\
   py_len (truncate text max_length suffix) = max_length).
Proof.
  intros Hsuf. unfold truncate, py_len in *. split.
  - intros Hfit. by rewrite (proj2 (Z.leb_le _ _) Hfit).
  - intros Hlong. rewrite (proj2 (Z.leb_gt _ _) Hlong).
    unfold slice_to. rewrite slice_index_nonneg by lia.
    rewrite Nat.min_r by lia. split; [done|].
    rewrite length_app, length_take. lia.
Qed.

Lemma truncate_fits_witness :
  (py_len dots <= 8)%Z /\
  ((py_len (list_ascii_of_string "Hello World") <= 8)%Z ->
   truncate (list_ascii_of_string "Hello World") 8 dots =
     list_ascii_of_string "Hello World") /\
  ((8 < py_len (list_ascii_of_string "Hello World"))%Z ->
   truncate (list_ascii_of_string "Hello World") 8 dots =
     take (Z.to_nat (8 - py_len dots)) (list_ascii_of_string "Hello World") ++ dots /\
   py_len (truncate (list_ascii_of_string "Hello World") 8 dots) = 8%Z).
Proof.
  split; [vm_compute; discriminate|].
  apply truncate_fits. vm_compute. discriminate.
Defined.

(** X19.  When [max_length] is smaller than the suffix and the text does
    not fit, [truncate] cuts as many characters off the end of the text as
    the suffix exceeds [max_length] by and appends the suffix, so the
    result is longer than [max_length]. *)
Theorem truncate_short_limit (text suffix : pystr) (max_length : Z) :
  (max_length < py_len suffix)%Z -> (max_length < py_len text)%Z ->
  truncate text max_length suffix =
    take (length text - Z.to_nat (py_len suffix - max_length)) text ++ suffix /\
  (max_length < py_len (truncate text max_length suffix))%Z.
Proof.
  intros Hsuf Hlong. unfold truncate, py_len in *.
  rewrite (proj2 (Z.leb_gt _ _) Hlong). unfold slice_to.
  rewrite slice_index_neg by lia. split.
  - do 3 f_equal. lia.
  - rewrite length_app. lia.
Qed.

Lemma truncate_short_limit_witness :
  (2 < py_len dots)%Z /\
  (2 < py_len (list_ascii_of_string "Hello World"))%Z /\
  truncate (list_ascii_of_string "Hello World") 2 dots =
    take (length (list_ascii_of_string "Hello World") - Z.to_nat (py_len dots - 2))
         (list_ascii_of_string "Hello World") ++ dots /\
  (2 < py_len (truncate (list_ascii_of_string "Hello World") 2 dots))%Z.
Proof.
  split; [vm_compute; reflexivity|]. split; [vm_compute; reflexivity|].
  apply truncate_short_limit; vm_compute; reflexivity.
Defined.

(** X20.  With a positive [visible_chars], [mask_sensitive] keeps the
    length of the text; a text longer than [visible_chars] keeps its last
    [visible_chars] characters and has every other character turned into
    a star, a text no longer than that is starred completely. *)
Theorem mask_sensitive_keeps_tail (text : pystr) (visible_chars : Z) :
  (0 < visible_chars)%Z ->
  length (mask_sensitive text visible_chars) = length text /\
  ((py_len text <= visible_chars)%Z ->
   mask_sensitive text visible_chars = replicate (length text) "*"%char) /\
  ((visible_chars < py_len text)%Z ->
   mask_sensitive text visible_chars =
     replicate (length text - Z.to_nat visible_chars) "*"%char ++
     drop (length text - Z.to_nat visible_chars) text).
Proof.
  intros Hpos. unfold mask_sensitive, py_len.
  destruct (Z.of_nat (length text) <=? visible_chars)%Z eqn:Hle.
  - apply Z.leb_le in Hle. rewrite str_mul_star, Nat2Z.id.
    split; [by rewrite length_replicate|]. split; [done | lia].
  - apply Z.leb_gt in Hle. rewrite str_mul_star. unfold slice_from.
    rewrite slice_index_neg by lia.
    replace (Z.to_nat (- - visible_chars)) with (Z.to_nat visible_chars) by lia.
    replace (Z.to_nat (Z.of_nat (length text) - visible_chars))
      with (length text - Z.to_nat visible_chars) by lia.
    split; [|split; [lia | done]].
    rewrite length_app, length_replicate, length_drop. lia.
Qed.

Lemma mask_sensitive_keeps_tail_witness :
  (0 < 4)%Z /\
  length (mask_sensitive (list_ascii_of_string "secret_api_key") 4) =
    length (list_ascii_of_string "secret_api_key") /\
  ((py_len (list_ascii_of_string "secret_api_key") <= 4)%Z ->
   mask_sensitive (list_ascii_of_string "secret_api_key") 4 =
     replicate (length (list_ascii_of_string "secret_api_key")) "*"%char) /\
  ((4 < py_len (list_ascii_of_string "secret_api_key"))%Z ->
   mask_sensitive (list_ascii_of_string "secret_api_key") 4 =
     replicate (length (list_ascii_of_string "secret_api_key") - Z.to_nat 4) "*"%char ++
     drop (length (list_ascii_of_string "secret_api_key") - Z.to_nat 4)
          (list_ascii_of_string "secret_api_key")).
Proof.
  split; [reflexivity|]. apply mask_sensitive_keeps_tail. reflexivity.
Defined.

(** X21.  With [visible_chars] zero or negative nothing is hidden as
    meant: the result is a run of stars, one per character of the text and
    one more per unit below zero, followed by the text without its first
    [-visible_chars] characters; at zero the whole text follows the
    stars. *)
Theorem mask_sensitive_not_positive (text : pystr) (visible_chars : Z) :
  (visible_chars <= 0)%Z ->
  mask_sensitive text visible_chars =
    replicate (length text + Z.to_nat (- visible_chars)) "*"%char ++
    drop (Z.to_nat (- visible_chars)) text.
Proof.
  intros Hle. unfold mask_sensitive, py_len.
  destruct (Z.of_nat (length text) <=? visible_chars)%Z eqn:Hfit.
  - apply Z.leb_le in Hfit.
    assert (length text = 0) as Hlen by lia.
    assert (visible_chars = 0%Z) as -> by lia.
    destruct text; [done | simpl in Hlen; lia].
  - rewrite str_mul_star. unfold slice_from.
    rewrite slice_index_nonneg by lia. f_equal; [f_equal; lia|].
    destruct (decide (length text <= Z.to_nat (- visible_chars))) as [Hge|Hlt].
    + rewrite Nat.min_l by lia. by rewrite !drop_ge by lia.
    + by rewrite Nat.min_r by lia.
Qed.

Lemma mask_sensitive_not_positive_witness :
  (0 <= 0)%Z /\
  mask_sensitive (list_ascii_of_string "secret") 0 =
    replicate (length (list_ascii_of_string "secret") + Z.to_nat (- 0)) "*"%char ++
    drop (Z.to_nat (- 0)) (list_ascii_of_string "secret").
Proof.
  split; [lia|]. apply mask_sensitive_not_positive. lia.
Defined.

Lemma py_range_from_zero (len : nat) (size : Z) :
  (0 < size)%Z ->
  py_range 0 (Z.of_nat len) size =
  map (fun j => (Z.of_nat j * size)%Z)
      (seq 0 ((len + Z.to_nat size - 1) / Z.to_nat size)).
Proof.
  intros Hsize. unfold py_range.
  rewrite (proj2 (Z.ltb_lt _ _) Hsize).
  assert (Z.to_nat (if (0 <? Z.of_nat len)%Z
                    then ((Z.of_nat len - 0 + size - 1) / size)%Z else 0%Z) =
          (len + Z.to_nat size - 1) / Z.to_nat size) as ->.
  { destruct (0 <? Z.of_nat len)%Z eqn:Hlen.
    - apply Z.ltb_lt in Hlen.
      rewrite <- (Z2Nat.id size) at 1 2 by lia.
      replace (Z.of_nat len - 0 + Z.of_nat (Z.to_nat size) - 1)%Z
        with (Z.of_nat (len + Z.to_nat size - 1)) by lia.
      by rewrite <- Nat2Z.inj_div, Nat2Z.id.
    - apply Z.ltb_ge in Hlen. assert (len = 0) as -> by lia.
      simpl. symmetry. apply Nat.div_small. lia. }
  apply map_ext. intros j. lia.
Qed.

Lemma take_min_length {A} (l : list A) c :
  take (Nat.min (length l) c) l = take c l.
Proof.
  destruct (decide (c <= length l)) as [Hle|Hgt].
  - by rewrite Nat.min_r.
  - rewrite Nat.min_l by lia. by rewrite !take_ge by lia.
Qed.

Lemma py_slice_chunk {A} (s : list A) (j : nat) (size : Z) :
  (0 < size)%Z ->
  py_slice (Z.of_nat j * size) (Z.of_nat j * size + size) s =
  take (Z.to_nat size) (drop (j * Z.to_nat size) s).
Proof.
  intros Hsize. unfold py_slice.
  rewrite !slice_index_nonneg by lia.
  replace (Z.to_nat (Z.of_nat j * size)) with (j * Z.to_nat size) by lia.
  replace (Z.to_nat (Z.of_nat j * size + size))
    with (j * Z.to_nat size + Z.to_nat size) by lia.
  set (c := Z.to_nat size). set (n := j * c).
  destruct (decide (n <= length s)) as [Hle|Hgt].
  - rewrite (Nat.min_r _ n) by lia.
    replace (Nat.min (length s) (n + c) - n)
      with (Nat.min (length (drop n s)) c) by (rewrite length_drop; lia).
    apply take_min_length.
  - rewrite !Nat.min_l by lia. rewrite Nat.sub_diag.
    rewrite (drop_ge s n) by lia. by rewrite take_nil.
Qed.

Lemma split_into_chunks_list (text : pystr) (size : Z) :
  (0 < size)%Z ->
  split_into_chunks text size =
  Chunks (chunk_list (Z.to_nat size)
            ((length text + Z.to_nat size - 1) / Z.to_nat size) text).
Proof.
  intros Hsize. unfold split_into_chunks, py_len.
  rewrite (proj2 (Z.eqb_neq _ _)) by lia.
  rewrite py_range_from_zero by done. f_equal. unfold chunk_list.
  rewrite map_map. apply map_ext. intros j. by apply py_slice_chunk.
Qed.

Lemma chunk_list_S {A} c m (s : list A) :
  chunk_list c (S m) s = take c s :: chunk_list c m (drop c s).
Proof.
  unfold chunk_list. simpl. f_equal.
  rewrite <- fmap_S_seq. rewrite <- list_fmap_compose.
  apply list_fmap_ext. intros _ j _. simpl.
  by rewrite drop_drop.
Qed.

Lemma chunk_list_concat {A} c m (s : list A) :
  length s <= m * c -> concat (chunk_list c m s) = s.
Proof.
  revert s. induction m as [|m IH]; intros s Hlen.
  - simpl in Hlen. destruct s; [done | simpl in Hlen; lia].
  - rewrite chunk_list_S. simpl. rewrite IH.
    + apply take_drop.
    + rewrite length_drop. lia.
Qed.

Lemma ceil_div_bounds len c :
  0 < c ->
  len <= (len + c - 1) / c * c /\
  (0 < len -> ((len + c - 1) / c - 1) * c < len /\ 0 < (len + c - 1) / c).
Proof.
  intros Hc. pose proof (Nat.div_mod_eq (len + c - 1) c) as Hdm.
  pose proof (Nat.mod_upper_bound (len + c - 1) c) as Hmod.
  set (m := (len + c - 1) / c) in *. set (r := (len + c - 1) mod c) in *.
  split; [nia|]. intros Hlen. split; nia.
Qed.

(** X22.  For a positive chunk size the chunks put back together are the
    text: nothing is lost, repeated or reordered. *)
Theorem split_into_chunks_concat (text : pystr) (chunk_size : Z) :
  (0 < chunk_size)%Z ->
  exists cs, split_into_chunks text chunk_size = Chunks cs /\ concat cs = text.
Proof.
  intros Hsize. eexists. split; [by apply split_into_chunks_list|].
  apply chunk_list_concat. apply ceil_div_bounds. lia.
Qed.

Lemma split_into_chunks_concat_witness :
  (0 < 4)%Z /\
  exists cs,
    split_into_chunks (list_ascii_of_string "Hello World") 4 = Chunks cs /\
    concat cs = list_ascii_of_string "Hello World".
Proof.
  split; [reflexivity|]. apply split_into_chunks_concat. reflexivity.
Defined.

(** X23.  For a positive chunk size there are as many chunks as the
    length of the text divided by the size, rounded up; no chunk is empty,
    none is longer than the size, and every chunk but the last has exactly
    that size. *)
Theorem split_into_chunks_sizes (text : pystr) (chunk_size : Z) :
  (0 < chunk_size)%Z ->
  exists cs,
    split_into_chunks text chunk_size = Chunks cs /\
    length cs = (length text + Z.to_nat chunk_size - 1) / Z.to_nat chunk_size /\
    forall i ch, cs !! i = Some ch ->
      0 < length ch <= Z.to_nat chunk_size /\
      (S i < length cs -> length ch = Z.to_nat chunk_size).
Proof.
  intros Hsize. eexists. split; [by apply split_into_chunks_list|].
  set (c := Z.to_nat chunk_size).
  set (m := (length text + c - 1) / c).
  assert (0 < c) as Hc by lia.
  assert (length (chunk_list c m text) = m) as Hlen
    by (unfold chunk_list; by rewrite length_map, length_seq).
  split; [done|]. intros i ch Hi. rewrite Hlen.
  unfold chunk_list in Hi. rewrite list_lookup_fmap in Hi.
  destruct (seq 0 m !! i) as [j|] eqn:Hj; [|done].
  apply lookup_seq in Hj as [-> Him]. simpl in Hi. injection Hi as <-.
  rewrite length_take, length_drop.
  destruct (ceil_div_bounds (length text) c Hc) as [Hup Hlow]. fold m in Hup, Hlow.
  assert (0 < length text) as Hpos.
  { destruct (decide (length text = 0)) as [E|E]; [|lia]. exfalso.
    unfold m in Him. rewrite E in Him. simpl in Him.
    rewrite Nat.div_small in Him; lia. }
  destruct (Hlow Hpos) as [Hlast _]. split; [nia|]. intros Hnext. nia.
Qed.

Lemma split_into_chunks_sizes_witness :
  (0 < 3)%Z /\
  exists cs,
    split_into_chunks (list_ascii_of_string "abcdefgh") 3 = Chunks cs /\
    length cs = (length (list_ascii_of_string "abcdefgh") + Z.to_nat 3 - 1) / Z.to_nat 3 /\
    forall i ch, cs !! i = Some ch ->
      0 < length ch <= Z.to_nat 3 /\
      (S i < length cs -> length ch = Z.to_nat 3).
Proof.
  split; [reflexivity|]. apply split_into_chunks_sizes. reflexivity.
Defined.

(** X24.  A negative chunk size raises nothing: the range is empty and no
    chunk is returned, whatever the text. *)
Theorem split_into_chunks_negative (text : pystr) (chunk_size : Z) :
  (chunk_size < 0)%Z -> split_into_chunks text chunk_size = Chunks [].
Proof.
  intros Hneg. unfold split_into_chunks, py_range, py_len.
  rewrite (proj2 (Z.eqb_neq _ _)) by lia.
  rewrite (proj2 (Z.ltb_ge _ _)) by lia.
  rewrite (proj2 (Z.ltb_ge _ _)) by lia. done.
Qed.

Lemma split_into_chunks_negative_witness :
  (-3 < 0)%Z /\
  split_into_chunks (list_ascii_of_string "abcdefgh") (-3) = Chunks [].
Proof.
  split; [reflexivity|]. apply split_into_chunks_negative. reflexivity.
Defined.

(** ** Words, splitting and joining *)

Section words.
Variable sep : ascii -> bool.

Lemma split_on_cons_word c s :
  sep c = false ->
  split_on sep (c :: s) =
  match head s with
  | Some c' =>
      if sep c' then [c] :: split_on sep s
      else match split_on sep s with
           | w :: ws => (c :: w) :: ws
           | [] => [[c]]
           end
  | None => [[c]]
  end.
Proof. intros Hc. simpl. rewrite Hc. by destruct s. Qed.

Lemma split_on_cons_sep c s :
  sep c = true -> split_on sep (c :: s) = split_on sep s.
Proof. intros Hc. simpl. by rewrite Hc. Qed.

Lemma split_on_words s : Forall (is_word sep) (split_on sep s).
Proof.
  induction s as [|c s IH]; [constructor|].
  destruct (sep c) eqn:Hc; [by rewrite split_on_cons_sep|].
  rewrite split_on_cons_word by done.
  assert (is_word sep [c]) as Hw by (split; [done | by repeat constructor]).
  destruct (head s) as [c'|]; [|by repeat constructor].
  destruct (sep c'); [by constructor|].
  destruct (split_on sep s) as [|w ws]; [by repeat constructor|].
  apply Forall_cons in IH as [[Hne Hall] Hws]. constructor; [|done].
  split; [done | by constructor].
Qed.

Lemma split_on_word_then_sep w sepc r :
  is_word sep w -> sep sepc = true ->
  split_on sep (w ++ sepc :: r) = w :: split_on sep r.
Proof.
  intros [Hne Hall] Hsep. induction Hall as [|c w Hc Hall IH]; [done|].
  rewrite <- app_comm_cons, split_on_cons_word by done.
  destruct w as [|c2 w'].
  - simpl. by rewrite Hsep.
  - change (head ((c2 :: w') ++ sepc :: r)) with (Some c2).
    apply Forall_cons in Hall as [Hc2 Hall'].
    rewrite Hc2. rewrite IH by done. done.
Qed.

Lemma split_on_word w : is_word sep w -> split_on sep w = [w].
Proof.
  intros [Hne Hall]. induction Hall as [|c w Hc Hall IH]; [done|].
  rewrite split_on_cons_word by done.
  destruct w as [|c2 w']; [done|].
  change (head (c2 :: w')) with (Some c2).
  apply Forall_cons in Hall as [Hc2 Hall'].
  rewrite Hc2. rewrite IH by done. done.
Qed.

(** Splitting what was joined with a separator gives the words back. *)
Lemma split_on_join sepc ws :
  sep sepc = true -> Forall (is_word sep) ws ->
  split_on sep (str_join [sepc] ws) = ws.
Proof.
  intros Hsep Hws. induction Hws as [|w ws Hw Hws IH]; [done|].
  destruct ws as [|w2 ws'].
  - simpl. by apply split_on_word.
  - change (str_join [sepc] (w :: w2 :: ws'))
      with (w ++ sepc :: str_join [sepc] (w2 :: ws')).
    rewrite split_on_word_then_sep by done. by rewrite IH.
Qed.

Lemma concat_split_on s :
  concat (split_on sep s) = filter (fun c => sep c = false) s.
Proof.
  induction s as [|c s IH]; [done|]. rewrite filter_cons.
  destruct (sep c) eqn:Hc.
  - rewrite split_on_cons_sep by done. rewrite decide_False by done. done.
  - rewrite split_on_cons_word by done. rewrite decide_True by done.
    rewrite <- IH. destruct (head s) as [c'|] eqn:Hs.
    + destruct (sep c') eqn:Hc'; [done|].
      destruct (split_on sep s) as [|w ws] eqn:Hsp; [|done].
      destruct s as [|c2 s']; [done|]. simpl in Hs. injection Hs as ->.
      rewrite split_on_cons_word in Hsp by done.
      destruct (head s') as [c3|]; [|done].
      destruct (sep c3); [done|]. by destruct (split_on sep s').
    + destruct s; done.
Qed.

Lemma filter_join sepc ws :
  sep sepc = true -> Forall (is_word sep) ws ->
  filter (fun c => sep c = false) (str_join [sepc] ws) = concat ws.
Proof.
  intros Hsep Hws.
  rewrite <- concat_split_on. by rewrite split_on_join.
Qed.
End words.

(** X25.  Cleaning twice is cleaning once: [clean_text] leaves its own
    results unchanged. *)
Theorem clean_text_idempotent (text : pystr) :
  clean_text (clean_text text) = clean_text text.
Proof.
  unfold clean_text, space. simpl list_ascii_of_string.
  rewrite split_on_join; [done | done | apply split_on_words].
Qed.

(** X26.  [clean_text] changes whitespace only: its result is a list of
    words, non-empty runs free of whitespace, joined by single spaces, so
    it has no whitespace at either end and never two in a row, and
    without the whitespace it reads as the text does without its own. *)
Theorem clean_text_words (text : pystr) :
  exists ws,
    clean_text text = str_join space ws /\
    Forall (is_word is_space) ws /\
    filter (fun c => is_space c = false) (clean_text text) =
    filter (fun c => is_space c = false) text.
Proof.
  exists (split_on is_space text). split; [done|].
  split; [apply split_on_words|].
  unfold clean_text, space. simpl list_ascii_of_string.
  rewrite filter_join; [apply concat_split_on | done | apply split_on_words].
Qed.

(** ** Stripping *)

Lemma split_on_lstrip (p q : ascii -> bool) s :
  (forall c, q c = true -> p c = true) ->
  split_on p (lstrip q s) = split_on p s.
Proof.
  intros Hqp. induction s as [|c s IH]; [done|]. simpl lstrip.
  destruct (q c) eqn:Hq; [|done].
  rewrite IH. symmetry. apply split_on_cons_sep. by apply Hqp.
Qed.

Lemma rstrip_nil_split (p q : ascii -> bool) s :
  (forall c, q c = true -> p c = true) ->
  rstrip q s = [] -> split_on p s = [] /\ forall c, head s = Some c -> p c = true.
Proof.
  intros Hqp. induction s as [|c s IH]; [done|]. simpl rstrip.
  destruct (rstrip q s) as [|c0 r] eqn:Hr; [|done].
  destruct (q c) eqn:Hq; [|done]. intros _.
  destruct IH as [IH _]; [done|]. split.
  - rewrite split_on_cons_sep by (by apply Hqp). done.
  - intros c' [= <-]. by apply Hqp.
Qed.

Lemma rstrip_head (q : ascii -> bool) s :
  rstrip q s <> [] -> head (rstrip q s) = head s.
Proof.
  destruct s as [|c s]; [done|]. simpl.
  destruct (rstrip q s); [|done]. by destruct (q c).
Qed.

Lemma split_on_rstrip (p q : ascii -> bool) s :
  (forall c, q c = true -> p c = true) ->
  split_on p (rstrip q s) = split_on p s.
Proof.
  intros Hqp. induction s as [|c s IH]; [done|]. simpl rstrip.
  destruct (rstrip q s) as [|c0 r] eqn:Hr.
  - destruct (rstrip_nil_split p q s Hqp Hr) as [Hsplit Hhead].
    destruct (p c) eqn:Hp.
    + rewrite (split_on_cons_sep p c s Hp), Hsplit.
      destruct (q c); [done|]. by rewrite (split_on_cons_sep p c [] Hp).
    + assert (q c = false) as ->.
      { destruct (q c) eqn:Hq; [|done]. apply Hqp in Hq. congruence. }
      rewrite (split_on_cons_word p c s Hp), Hsplit.
      destruct (head s) as [c'|] eqn:Hs; [|by simpl; rewrite Hp].
      rewrite (Hhead c' eq_refl). simpl. by rewrite Hp.
  - destruct (p c) eqn:Hp.
    + by rewrite (split_on_cons_sep p c _ Hp), (split_on_cons_sep p c s Hp).
    + rewrite (split_on_cons_word p c _ Hp), (split_on_cons_word p c s Hp).
      rewrite IH.
      assert (head (c0 :: r) = head s) as ->; [|done].
      rewrite <- Hr. apply rstrip_head. by rewrite Hr.
Qed.

Lemma split_on_strip (p q : ascii -> bool) s :
  (forall c, q c = true -> p c = true) ->
  split_on p (strip q s) = split_on p s.
Proof.
  intros Hqp. unfold strip. by rewrite split_on_rstrip, split_on_lstrip.
Qed.

(** ** The slug *)

Lemma space_not_slug c : is_space c = true -> not_slug_char c = true.
Proof.
  destruct c as [[] [] [] [] [] [] [] []]; vm_compute; congruence.
Qed.

Lemma hyphen_not_slug c : is_hyphen c = true -> not_slug_char c = true.
Proof.
  unfold is_hyphen. intros Hc. apply bool_decide_eq_true in Hc. by subst.
Qed.

Lemma slug_not_hyphen c : not_slug_char c = false -> is_hyphen c = false.
Proof.
  intros Hc. destruct (is_hyphen c) eqn:Hh; [|done].
  apply hyphen_not_slug in Hh. congruence.
Qed.

Lemma lower_slug_char c : not_slug_char c = false -> lower_char c = c.
Proof.
  destruct c as [[] [] [] [] [] [] [] []]; vm_compute; congruence.
Qed.

Lemma sub_runs_true_head s c :
  head (sub_runs true s) = Some c -> is_hyphen c = false.
Proof.
  induction s as [|c0 s IH]; [done|]. simpl.
  destruct (is_slug_char c0) eqn:Hc0; [|done].
  intros [= <-]. apply slug_not_hyphen. unfold not_slug_char. by rewrite Hc0.
Qed.

Lemma lstrip_id (p : ascii -> bool) s :
  (forall c, head s = Some c -> p c = false) -> lstrip p s = s.
Proof. destruct s as [|c s]; [done|]. intros Hh. simpl. by rewrite (Hh c). Qed.

Lemma lstrip_sub_runs b s :
  lstrip is_hyphen (sub_runs b s) = sub_runs true s.
Proof.
  destruct b; [apply lstrip_id, sub_runs_true_head|].
  destruct s as [|c s]; [done|]. simpl.
  destruct (is_slug_char c) eqn:Hc.
  - apply lstrip_id. intros c' [= <-]. apply slug_not_hyphen.
    unfold not_slug_char. by rewrite Hc.
  - change (lstrip is_hyphen ("-"%char :: sub_runs true s))
      with (lstrip is_hyphen (sub_runs true s)).
    apply lstrip_id, sub_runs_true_head.
Qed.

Lemma str_join_cons_word (sepc c : ascii) w ws :
  str_join [sepc] ((c :: w) :: ws) = c :: str_join [sepc] (w :: ws).
Proof. by destruct ws. Qed.

Lemma str_join_nonempty sepc ws (sep : ascii -> bool) :
  ws <> [] -> Forall (is_word sep) ws -> str_join [sepc] ws <> [].
Proof.
  intros Hne Hws. destruct Hws as [|w ws [Hw _] _]; [done|].
  destruct w as [|c w]; [done|]. by rewrite str_join_cons_word.
Qed.

Lemma rstrip_cons (p : ascii -> bool) c s :
  rstrip p s <> [] -> rstrip p (c :: s) = c :: rstrip p s.
Proof. simpl. by destruct (rstrip p s). Qed.

(** What is left of [sub_runs] once the hyphens at its end are stripped:
    the words joined by hyphens, after a hyphen if the text starts inside a
    run that is not yet counted. *)
Lemma rstrip_sub_runs b s :
  rstrip is_hyphen (sub_runs b s) =
  match split_on not_slug_char s with
  | [] => []
  | ws =>
      (if b then []
       else match head s with
            | Some c => if not_slug_char c then ["-"%char] else []
            | None => []
            end) ++ str_join ["-"%char] ws
  end.
Proof.
  revert b. induction s as [|c s IH]; intros b; [done|].
  pose proof (split_on_words not_slug_char s) as Hwords.
  simpl sub_runs. change (head (c :: s)) with (Some c).
  destruct (is_slug_char c) eqn:Hc.
  - assert (not_slug_char c = false) as Hn by (unfold not_slug_char; by rewrite Hc).
    rewrite Hn, (split_on_cons_word _ c s Hn).
    assert ((if b then [] else @nil ascii) = []) as -> by (by destruct b).
    simpl app. specialize (IH false).
    destruct (split_on not_slug_char s) as [|w ws] eqn:Hsp.
    + simpl rstrip. rewrite IH. rewrite (slug_not_hyphen c Hn).
      destruct (head s) as [c'|]; [|done]. by destruct (not_slug_char c').
    + assert (rstrip is_hyphen (sub_runs false s) <> []) as Hne.
      { rewrite IH. intros Heq. apply app_eq_nil in Heq as [_ Heq].
        revert Heq. by apply (str_join_nonempty _ _ not_slug_char). }
      rewrite rstrip_cons by done. rewrite IH.
      destruct (head s) as [c'|] eqn:Hs.
      * destruct (not_slug_char c'); [done|].
        simpl app. by destruct ws.
      * destruct s; done.
  - assert (not_slug_char c = true) as Hn by (unfold not_slug_char; by rewrite Hc).
    rewrite Hn, (split_on_cons_sep _ c s Hn). specialize (IH true).
    destruct b; [done|].
    destruct (split_on not_slug_char s) as [|w ws] eqn:Hsp.
    + simpl rstrip. by rewrite IH.
    + assert (rstrip is_hyphen (sub_runs true s) <> []) as Hne.
      { rewrite IH. by apply (str_join_nonempty _ _ not_slug_char). }
      rewrite rstrip_cons by done. by rewrite IH.
Qed.

(** The slug is the hyphen-joined list of the words of the lower-cased
    text. *)
Lemma slugify_join (text : pystr) :
  slugify text = str_join hyphen (split_on not_slug_char (str_lower text)).
Proof.
  unfold slugify, strip at 1. rewrite lstrip_sub_runs, rstrip_sub_runs.
  rewrite (split_on_strip _ _ _ space_not_slug).
  by destruct (split_on not_slug_char (str_lower text)).
Qed.

(** X27.  [slugify] returns the maximal runs of letters a to z and digits
    of the lower-cased text, joined by single hyphens: only those
    characters and hyphens occur, no hyphen comes first, last or next to
    another. *)
Theorem slugify_words (text : pystr) :
  slugify text =
    str_join hyphen (split_on not_slug_char (str_lower text)) /\
  Forall (is_word not_slug_char) (split_on not_slug_char (str_lower text)).
Proof. split; [apply slugify_join | apply split_on_words]. Qed.

Lemma str_lower_join ws :
  Forall (is_word not_slug_char) ws ->
  str_lower (str_join ["-"%char] ws) = str_join ["-"%char] ws.
Proof.
  assert (forall w, Forall (fun c => not_slug_char c = false) w ->
                    str_lower w = w) as Hw.
  { intros w Hall. induction Hall as [|c w Hc _ IH]; [done|].
    simpl. by rewrite (lower_slug_char c Hc), IH. }
  intros Hws. induction Hws as [|w ws [_ Hall] Hws IH]; [done|].
  destruct ws as [|w2 ws']; [by apply Hw|].
  change (str_join ["-"%char] (w :: w2 :: ws'))
    with (w ++ "-"%char :: str_join ["-"%char] (w2 :: ws')).
  unfold str_lower in *. rewrite map_app, map_cons.
  rewrite IH, (Hw w Hall). done.
Qed.

(** X28.  A slug is its own slug: [slugify] leaves its own results
    unchanged. *)
Theorem slugify_idempotent (text : pystr) :
  slugify (slugify text) = slugify text.
Proof.
  pose proof (split_on_words not_slug_char (str_lower text)) as Hws.
  rewrite (slugify_join (slugify text)), (slugify_join text).
  unfold hyphen. simpl list_ascii_of_string.
  rewrite str_lower_join by done.
  by rewrite split_on_join.
Qed.
